(** * js/src/vm/NumericConversions.h

    A shallow embedding of SpiderMonkey's double-to-integer conversions
    ([detail::ToUintWidth], [detail::ToIntWidth], [ToInt32], [ToUint32],
    [ToInt64], [ToUint64], [ToInteger]) and the proofs of their
    specification.

    A [double] is its 64-bit IEEE-754 binary64 pattern; fixed-width C++
    integers are mathematical integers with the wrap-around written out. *)

From Stdlib Require Import ZArith QArith Qround Qabs Qpower Bool List Lia.
Import ListNotations.
Local Open Scope Z_scope.

(** ** Fixed-width integer types *)

Definition CHAR_BIT : Z := 8.

Inductive UnsignedType : Set := uint32_t | uint64_t.
Inductive SignedType : Set := int32_t | int64_t.

Definition sizeof_unsigned (T : UnsignedType) : Z :=
  match T with uint32_t => 4 | uint64_t => 8 end.

Definition sizeof_signed (T : SignedType) : Z :=
  match T with int32_t => 4 | int64_t => 8 end.

(** mozilla::MakeUnsigned<T>::Type *)
Definition MakeUnsigned (T : SignedType) : UnsignedType :=
  match T with int32_t => uint32_t | int64_t => uint64_t end.

(** Conversion of an integer to an unsigned type of [w] bits. *)
Definition wrap_unsigned (w x : Z) : Z := x mod 2 ^ w.

(** Conversion of an integer to a signed type of [w] bits, and the result
    of signed arithmetic in that type: two's-complement wrap-around. *)
Definition wrap_signed (w x : Z) : Z := (x + 2 ^ (w - 1)) mod 2 ^ w - 2 ^ (w - 1).

(** A 64-bit pattern. *)
Definition uint64 (x : Z) : Prop := 0 <= x < 2 ^ 64.

(** ** Shifts, recorded

    Every shift the code performs is recorded with the bit width of its
    (promoted) left operand and its amount, so that the bounds on the
    amounts can be stated about the code as it runs. *)

Inductive shift_direction : Set := Left | Right.

Record shift_event : Set := ShiftEvent {
  sh_dir : shift_direction;
  sh_width : Z;
  sh_amount : Z
}.

(** A shift is defined by the language when its amount is non-negative and
    less than the width of the operand. *)
Definition shift_defined (ev : shift_event) : Prop :=
  0 <= sh_amount ev < sh_width ev.

Definition Logged (A : Type) : Type := A * list shift_event.

Definition ret {A : Type} (x : A) : Logged A := (x, []).

Definition bind {A B : Type} (m : Logged A) (f : A -> Logged B) : Logged B :=
  let (a, l1) := m in
  let (b, l2) := f a in
  (b, l1 ++ l2).

Notation "x <- m ;; k" := (bind m (fun x => k))
  (at level 61, m at next level, right associativity).

(** [x << n] on an unsigned operand of [w] bits. *)
Definition shl (w x n : Z) : Logged Z :=
  (wrap_unsigned w (Z.shiftl x n), [ShiftEvent Left w n]).

(** [x >> n] on an unsigned operand of [w] bits. *)
Definition shr (w x n : Z) : Logged Z :=
  (Z.shiftr x n, [ShiftEvent Right w n]).

(** ** Doubles *)

Definition double : Set := Z.

(** mozilla::BitwiseCast<uint64_t>(d) *)
Definition BitwiseCast (d : double) : Z := d.

(** Modelled from the spec: the constants of mozilla::FloatingPoint<double>
    (mozilla/FloatingPoint.h is not among the sources): one sign bit, an
    11-bit exponent field biased by 1023, and 52 mantissa bits. *)
Definition ExponentShift : Z := 52.
Definition ExponentBias : Z := 1023.
Definition SignBit : Z := 0x8000000000000000.
Definition ExponentBits : Z := 0x7ff0000000000000.
Definition SignificandBits : Z := 0x000fffffffffffff.

(** The three fields of a double. *)
Definition sign_field (d : double) : bool := Z.testbit d 63.
Definition exponent_field (d : double) : Z := (d / 2 ^ 52) mod 2 ^ 11.
Definition mantissa_field (d : double) : Z := d mod 2 ^ 52.

(** Modelled from the spec: mozilla::IsNaN, mozilla::IsInfinite and
    mozilla::IsFinite (mozilla/FloatingPoint.h is not among the sources):
    an exponent field of all ones marks the non-finite values, a NaN when
    the mantissa is not zero and an infinity when it is. *)
Definition IsNaN (d : double) : bool :=
  (Z.land d ExponentBits =? ExponentBits) && negb (Z.land d SignificandBits =? 0).

Definition IsInfinite (d : double) : bool :=
  (Z.land d ExponentBits =? ExponentBits) && (Z.land d SignificandBits =? 0).

Definition IsFinite (d : double) : bool :=
  negb (Z.land d ExponentBits =? ExponentBits).

(** The magnitude of a finite double: [m * 2^-1074] for zeros and
    subnormals (exponent field 0), [(2^52 + m) * 2^(E - 1075)] otherwise. *)
Definition magnitude (d : double) : Q :=
  if exponent_field d =? 0
  then (inject_Z (mantissa_field d) * 2 ^ (-1074))%Q
  else (inject_Z (2 ^ 52 + mantissa_field d) * 2 ^ (exponent_field d - 1075))%Q.

(** The real number a finite double stands for. *)
Definition value (d : double) : Q :=
  if sign_field d then (- magnitude d)%Q else magnitude d.

(** [sign(d) * floor(abs(d))], the integer the conversions reduce. *)
Definition d2 (d : double) : Z :=
  (if sign_field d then -1 else 1) * Qfloor (Qabs (value d)).

(** ** detail::ToUintWidth *)

Definition ResultWidth (T : UnsignedType) : Z := CHAR_BIT * sizeof_unsigned T.

(** The decoded exponent, [exp] in the source. *)
Definition decoded_exponent (d : double) : Logged Z :=
  e <- shr 64 (Z.land (BitwiseCast d) ExponentBits) ExponentShift ;;
  ret (e - ExponentBias).

Definition ToUintWidth_logged (T : UnsignedType) (d : double) : Logged Z :=
  let bits := BitwiseCast d in
  let DoubleExponentShift := ExponentShift in
  exp <- decoded_exponent d ;;
  if exp <? 0 then ret 0
  else
    let exponent := exp in
    let ResultWidth := ResultWidth T in
    if exponent >=? DoubleExponentShift + ResultWidth then ret 0
    else
      result <- (if exponent >? DoubleExponentShift
                 then s <- shl 64 bits (exponent - DoubleExponentShift) ;;
                      ret (wrap_unsigned ResultWidth s)
                 else s <- shr 64 bits (DoubleExponentShift - exponent) ;;
                      ret (wrap_unsigned ResultWidth s)) ;;
      result <- (if exponent <? ResultWidth
                 then implicitOne <- shl ResultWidth 1 exponent ;;
                      let result := Z.land result (wrap_unsigned ResultWidth (implicitOne - 1)) in
                      ret (wrap_unsigned ResultWidth (result + implicitOne))
                 else ret result) ;;
      ret (if negb (Z.land bits SignBit =? 0)
           then wrap_unsigned ResultWidth (Z.lnot result + 1)
           else result).

Definition ToUintWidth (T : UnsignedType) (d : double) : Z :=
  fst (ToUintWidth_logged T d).

(** The shifts [ToUintWidth] performs on [d], in order. *)
Definition ToUintWidth_shifts (T : UnsignedType) (d : double) : list shift_event :=
  snd (ToUintWidth_logged T d).

(** ** detail::ToIntWidth *)

Definition ToIntWidth (T : SignedType) (d : double) : Z :=
  let W := CHAR_BIT * sizeof_signed T in
  let MaxValue :=
    wrap_signed W (wrap_unsigned 64 (wrap_unsigned 64 (Z.shiftl 1 (W - 1)) - 1)) in
  let MinValue := wrap_signed W (wrap_signed W (- MaxValue) - 1) in
  let u := ToUintWidth (MakeUnsigned T) d in
  if u <=? wrap_unsigned W MaxValue
  then wrap_signed W u
  else wrap_signed W
         (wrap_signed W (MinValue + wrap_signed W (wrap_unsigned W (u - MaxValue))) - 1).

(** ** The entry points *)

(** The portable path of [ToInt32]; the ARM assembly selected by the
    preprocessor on that architecture is not modelled. *)
Definition ToInt32 (d : double) : Z := ToIntWidth int32_t d.
Definition ToUint32 (d : double) : Z := ToUintWidth uint32_t d.
Definition ToInt64 (d : double) : Z := ToIntWidth int64_t d.
Definition ToUint64 (d : double) : Z := ToUintWidth uint64_t d.

(** ** ToInteger *)

Definition positive_zero : double := 0.
Definition negative_zero : double := SignBit.

(** The comparison of two doubles as IEEE-754 orders them; [None] when a
    NaN makes them unordered.  [==] and [<] on doubles are read off it. *)
Definition compare_double (a b : double) : option comparison :=
  if IsNaN a || IsNaN b then None
  else if IsInfinite a then
    if IsInfinite b
    then Some (if sign_field a
               then (if sign_field b then Eq else Lt)
               else (if sign_field b then Gt else Eq))
    else Some (if sign_field a then Lt else Gt)
  else if IsInfinite b then Some (if sign_field b then Gt else Lt)
  else Some (value a ?= value b)%Q.

Definition double_eq (a b : double) : bool :=
  match compare_double a b with Some Eq => true | _ => false end.

Definition double_lt (a b : double) : bool :=
  match compare_double a b with Some Lt => true | _ => false end.

(** The double that holds the integer of magnitude [n], with the given
    sign; exact whenever that integer is a double (its bits below the 53
    leading ones are zero and it is below [2^1024]). *)
Definition double_of_integer (negative : bool) (n : Z) : double :=
  let s := if negative then SignBit else 0 in
  if n =? 0 then s
  else
    let e := Z.log2 n in
    let significand := if e <=? 52 then n * 2 ^ (52 - e) else n / 2 ^ (e - 52) in
    s + (e + ExponentBias) * 2 ^ 52 + (significand - 2 ^ 52).

(** [floor] and [ceil] of <math.h>, which the C library provides: the
    double whose value is the floor (the ceiling) of the argument's value;
    a zero result keeps the sign of the argument, and a non-finite argument
    is returned as it is (IEEE-754 roundToIntegral, C Annex F). *)
Definition floor (d : double) : double :=
  if IsFinite d then double_of_integer (sign_field d) (Z.abs (Qfloor (value d))) else d.

Definition ceil (d : double) : double :=
  if IsFinite d then double_of_integer (sign_field d) (Z.abs (Qceiling (value d))) else d.

Definition ToInteger (d : double) : double :=
  if double_eq d positive_zero then d
  else if negb (IsFinite d) then
    if IsNaN d then positive_zero else d
  else if double_lt d positive_zero then ceil d else floor d.

(** ** Double literals *)

Definition minus_one : double := 0xBFF0000000000000.             (* -1.0 *)
Definition minus_half : double := 0xBFE0000000000000.            (* -0.5 *)
Definition plus_two : double := 0x4000000000000000.              (* 2.0 *)
Definition minus_two : double := 0xC000000000000000.             (* -2.0 *)
Definition plus_2_1 : double := 0x4000CCCCCCCCCCCD.              (* 2.1 *)
Definition minus_2_7 : double := 0xC00599999999999A.             (* -2.7 *)
Definition two_pow_31 : double := 0x41E0000000000000.            (* 2147483648.0 *)
Definition two_pow_32 : double := 0x41F0000000000000.            (* 4294967296.0 *)
Definition two_pow_32_minus_half : double := 0x41EFFFFFFFF00000. (* 4294967295.5 *)
Definition two_pow_32_plus_one : double := 0x41F0000000100000.   (* 4294967297.0 *)
Definition quiet_NaN : double := 0x7FF8000000000000.
Definition plus_infinity : double := 0x7FF0000000000000.
Definition minus_infinity : double := 0xFFF0000000000000.

(** ** Auxiliary definitions for the proofs *)

(** The integer part of the magnitude, in integer arithmetic. *)
Definition integer_part (d : double) : Z :=
  let E := exponent_field d in
  let m := mantissa_field d in
  if E =? 0 then 0
  else if 1075 <=? E then (2 ^ 52 + m) * 2 ^ (E - 1075)
       else (2 ^ 52 + m) / 2 ^ (1075 - E).

(** The 64-bit pattern after the shift by [exponent - 52], before it is
    truncated to the result type. *)
Definition shifted_bits (d : double) (e : Z) : Z :=
  if e >? 52 then (d * 2 ^ (e - 52)) mod 2 ^ 64 else d / 2 ^ (52 - e).

(** The positive integers that are doubles: below [2^1024], with no bit set
    under the 53 leading ones. *)
Definition representable (n : Z) : Prop :=
  0 < n < 2 ^ 1024 /\ (Z.log2 n <= 52 \/ n mod 2 ^ (Z.log2 n - 52) = 0).

(** ** Further operations *)

(** Unary minus on a double: the sign bit is flipped. *)
Definition negate (d : double) : double := Z.lxor d SignBit.

(** [detail::ToIntWidth] once more, with every conversion to the signed
    type and every signed operation checked: [None] as soon as a value
    leaves the range of the type, where the language leaves the result to
    the implementation (the conversion) or undefined (the arithmetic). *)
Definition checked_signed (w x : Z) : option Z :=
  if (- 2 ^ (w - 1) <=? x) && (x <=? 2 ^ (w - 1) - 1) then Some x else None.

Definition ToIntWidth_checked (T : SignedType) (d : double) : option Z :=
  let W := CHAR_BIT * sizeof_signed T in
  let MaxValue :=
    wrap_signed W (wrap_unsigned 64 (wrap_unsigned 64 (Z.shiftl 1 (W - 1)) - 1)) in
  let MinValue := wrap_signed W (wrap_signed W (- MaxValue) - 1) in
  let u := ToUintWidth (MakeUnsigned T) d in
  if u <=? wrap_unsigned W MaxValue
  then checked_signed W u
  else
    match checked_signed W (wrap_unsigned W (u - MaxValue)) with
    | None => None
    | Some c =>
        match checked_signed W (MinValue + c) with
        | None => None
        | Some s => checked_signed W (s - 1)
        end
    end.

(** ** The ARM path of ToInt32

    The inline assembly that replaces [detail::ToIntWidth<int32_t>] when
    the file is compiled by GCC for ARM.  Its operands are [%0] (the result
    [i]), [%1], [%2], [%3] (the temporaries [tmp0], [tmp1], [tmp2]) and the
    register pair of [d]: [%Q4] its low word and [%R4] its high word. *)

Inductive register : Set := r_i | r_tmp0 | r_tmp1 | r_tmp2 | r_dQ | r_dR.

Record cpu : Set := Cpu {
  reg_i : Z;
  reg_tmp0 : Z;
  reg_tmp1 : Z;
  reg_tmp2 : Z;
  reg_dQ : Z;
  reg_dR : Z;
  flag_N : bool
}.

Definition get (st : cpu) (r : register) : Z :=
  match r with
  | r_i => reg_i st
  | r_tmp0 => reg_tmp0 st
  | r_tmp1 => reg_tmp1 st
  | r_tmp2 => reg_tmp2 st
  | r_dQ => reg_dQ st
  | r_dR => reg_dR st
  end.

Definition set_reg (st : cpu) (r : register) (v : Z) : cpu :=
  match r with
  | r_i => Cpu v (reg_tmp0 st) (reg_tmp1 st) (reg_tmp2 st) (reg_dQ st) (reg_dR st) (flag_N st)
  | r_tmp0 => Cpu (reg_i st) v (reg_tmp1 st) (reg_tmp2 st) (reg_dQ st) (reg_dR st) (flag_N st)
  | r_tmp1 => Cpu (reg_i st) (reg_tmp0 st) v (reg_tmp2 st) (reg_dQ st) (reg_dR st) (flag_N st)
  | r_tmp2 => Cpu (reg_i st) (reg_tmp0 st) (reg_tmp1 st) v (reg_dQ st) (reg_dR st) (flag_N st)
  | r_dQ => Cpu (reg_i st) (reg_tmp0 st) (reg_tmp1 st) (reg_tmp2 st) v (reg_dR st) (flag_N st)
  | r_dR => Cpu (reg_i st) (reg_tmp0 st) (reg_tmp1 st) (reg_tmp2 st) (reg_dQ st) v (flag_N st)
  end.

Definition set_N (st : cpu) (n : bool) : cpu :=
  Cpu (reg_i st) (reg_tmp0 st) (reg_tmp1 st) (reg_tmp2 st) (reg_dQ st) (reg_dR st) n.

Inductive shift_kind : Set := LSL | LSR | ASR.

(** A 32-bit register shifted by [n]: past 31 a logical shift gives 0 and
    an arithmetic one gives the sign in every bit. *)
Definition shifted (k : shift_kind) (x n : Z) : Z :=
  match k with
  | LSL => if n <? 32 then wrap_unsigned 32 (Z.shiftl x n) else 0
  | LSR => if n <? 32 then Z.shiftr x n else 0
  | ASR => wrap_unsigned 32 (Z.shiftr (wrap_signed 32 x) (if n <? 32 then n else 31))
  end.

(** The second operand of a data-processing instruction.  A shift by a
    register takes its amount from the bottom byte of that register. *)
Inductive operand2 : Set :=
| Imm (z : Z)
| Reg (r : register)
| RegShiftImm (r : register) (k : shift_kind) (n : Z)
| RegShiftReg (r : register) (k : shift_kind) (rs : register).

Definition eval_operand2 (st : cpu) (o : operand2) : Z :=
  match o with
  | Imm z => z
  | Reg r => get st r
  | RegShiftImm r k n => shifted k (get st r) n
  | RegShiftReg r k rs => shifted k (get st r) (get st rs mod 256)
  end.

Inductive instruction : Set :=
| MOV (rd : register) (o : operand2)
| BIC (rd rn : register) (o : operand2)
| ORR (rd rn : register) (o : operand2)
| EOR (rd rn : register) (o : operand2)
| ADD (rd rn : register) (o : operand2)
| SUB (rd rn : register) (o : operand2)
| SUBS (rd rn : register) (o : operand2)
| RSB (rd rn : register) (o : operand2).

(** Only [SUBS] sets the flags; [bmi] reads [N], bit 31 of its result. *)
Definition exec (ins : instruction) (st : cpu) : cpu :=
  match ins with
  | MOV rd o => set_reg st rd (eval_operand2 st o)
  | BIC rd rn o => set_reg st rd (Z.ldiff (get st rn) (eval_operand2 st o))
  | ORR rd rn o => set_reg st rd (Z.lor (get st rn) (eval_operand2 st o))
  | EOR rd rn o => set_reg st rd (Z.lxor (get st rn) (eval_operand2 st o))
  | ADD rd rn o => set_reg st rd (wrap_unsigned 32 (get st rn + eval_operand2 st o))
  | SUB rd rn o => set_reg st rd (wrap_unsigned 32 (get st rn - eval_operand2 st o))
  | SUBS rd rn o =>
      let r := wrap_unsigned 32 (get st rn - eval_operand2 st o) in
      set_N (set_reg st rd r) (Z.testbit r 31)
  | RSB rd rn o => set_reg st rd (wrap_unsigned 32 (eval_operand2 st o - get st rn))
  end.

Definition run (code : list instruction) (st : cpu) : cpu :=
  fold_left (fun st ins => exec ins st) code st.

Definition ToInt32_arm_code (st : cpu) : cpu :=
  let st := run [ MOV r_tmp0 (RegShiftImm r_dR LSR 20);
                  BIC r_tmp0 r_tmp0 (Imm (Z.shiftl 1 11));
                  ORR r_dR r_dR (Imm (Z.shiftl 1 20));
                  SUB r_tmp0 r_tmp0 (Imm 0xff);
                  SUBS r_tmp0 r_tmp0 (Imm 0x300) ] st in
  if flag_N st                                                  (* bmi 8f *)
  then run [ MOV r_i (Imm 0) ] st                               (* 8: *)
  else
    let st := run [ SUBS r_tmp2 r_tmp0 (Imm 52) ] st in
    let st :=
      if flag_N st                                              (* bmi 1f *)
      then run [ RSB r_tmp2 r_tmp0 (Imm 52);                    (* 1: *)
                 MOV r_dQ (RegShiftReg r_dQ LSR r_tmp2) ] st
      else run [ BIC r_tmp1 r_tmp2 (Imm 0xff);
                 ORR r_tmp2 r_tmp2 (RegShiftImm r_tmp1 LSR 3);
                 MOV r_dQ (RegShiftReg r_dQ LSL r_tmp2) ] st in (* b 2f *)
    let st := run [ SUBS r_tmp2 r_tmp0 (Imm 31);                (* 2: *)
                    MOV r_tmp0 (RegShiftImm r_dR LSL 11) ] st in
    let st :=
      if flag_N st                                              (* bmi 3f *)
      then run [ RSB r_tmp2 r_tmp2 (Imm 0);                     (* 3: *)
                 MOV r_tmp1 (RegShiftReg r_tmp0 LSR r_tmp2) ] st
      else run [ BIC r_tmp1 r_tmp2 (Imm 0xff);
                 ORR r_tmp2 r_tmp2 (RegShiftImm r_tmp1 LSR 3);
                 MOV r_tmp1 (RegShiftReg r_tmp0 LSL r_tmp2) ] st in (* b 4f *)
    run [ ORR r_dQ r_dQ (Reg r_tmp1);                           (* 4: *)
          EOR r_dQ r_dQ (RegShiftImm r_dR ASR 31);
          ADD r_i r_dQ (RegShiftImm r_dR LSR 31) ] st.          (* b 9f *)

(** [ToInt32] on ARM: [d] is handed over in its register pair, the other
    registers hold whatever they held, and [i] is read as an [int32_t]. *)
Definition ToInt32_arm (before : cpu) (d : double) : Z :=
  let st := set_reg (set_reg before r_dQ (d mod 2 ^ 32)) r_dR (d / 2 ^ 32) in
  wrap_signed 32 (reg_i (ToInt32_arm_code st)).

(** The amount of a shift by a register once [bic]/[orr] have folded the
    bits above the bottom byte into it (the source's way to keep a long
    shift long within the 8 bits the instruction reads). *)
Definition shift_amount (s : Z) : Z :=
  Z.lor s (shifted LSR (Z.ldiff s 0xff) 3) mod 256.

(** The dataflow of [ToInt32_arm_code] from the two words of [d] to [i]. *)
Definition arm_closed (hi lo : Z) : Z :=
  let exp := wrap_unsigned 32 (wrap_unsigned 32
               (Z.ldiff (shifted LSR hi 20) (Z.shiftl 1 11) - 0xff) - 0x300) in
  let hi1 := Z.lor hi (Z.shiftl 1 20) in
  if Z.testbit exp 31 then 0
  else
    let low :=
      if Z.testbit (wrap_unsigned 32 (exp - 52)) 31
      then shifted LSR lo (wrap_unsigned 32 (52 - exp) mod 256)
      else shifted LSL lo (shift_amount (wrap_unsigned 32 (exp - 52))) in
    let top := shifted LSL hi1 11 in
    let up :=
      if Z.testbit (wrap_unsigned 32 (exp - 31)) 31
      then shifted LSR top (wrap_unsigned 32 (0 - wrap_unsigned 32 (exp - 31)) mod 256)
      else shifted LSL top (shift_amount (wrap_unsigned 32 (exp - 31))) in
    wrap_unsigned 32 (Z.lxor (Z.lor low up) (shifted ASR hi1 31) + shifted LSR hi1 31).

Definition shift_amount_ok (s : Z) : bool :=
  if s <? 32 then shift_amount s =? s else 32 <=? shift_amount s.

(** * Proofs *)

(** ** Powers of two *)

Lemma pow2_pos (n : Z) : 0 <= n -> 0 < 2 ^ n.
Proof. intros; apply Z.pow_pos_nonneg; lia. Qed.

Lemma pow2_split (a b : Z) : 0 <= a <= b -> 2 ^ b = 2 ^ a * 2 ^ (b - a).
Proof. intros; rewrite <- Z.pow_add_r by lia; f_equal; lia. Qed.

Lemma pow2_le (a b : Z) : 0 <= a <= b -> 2 ^ a <= 2 ^ b.
Proof. intros; apply Z.pow_le_mono_r; lia. Qed.

Lemma pow2_lt (a b : Z) : 0 <= a < b -> 2 ^ a < 2 ^ b.
Proof. intros; apply Z.pow_lt_mono_r; lia. Qed.

(** ** The fields of a 64-bit pattern *)

Lemma exponent_field_range (d : double) : 0 <= exponent_field d < 2048.
Proof. unfold exponent_field; change (2 ^ 11) with 2048; apply Z.mod_pos_bound; lia. Qed.

Lemma mantissa_field_range (d : double) : 0 <= mantissa_field d < 2 ^ 52.
Proof. unfold mantissa_field; apply Z.mod_pos_bound; lia. Qed.

Lemma sign_field_spec (d : double) : uint64 d -> sign_field d = (2 ^ 63 <=? d).
Proof.
  unfold uint64, sign_field; intros Hd.
  destruct (Z.leb_spec (2 ^ 63) d) as [H|H].
  - apply Z.testbit_true; [lia|].
    replace (d / 2 ^ 63) with 1; [reflexivity|].
    apply Z.div_unique with (r := d - 2 ^ 63); lia.
  - apply Z.testbit_false; [lia|].
    rewrite Z.div_small by lia; reflexivity.
Qed.

(** A pattern is the sum of its three fields. *)
Lemma double_fields (d : double) :
  uint64 d ->
  d = (if sign_field d then 2 ^ 63 else 0) + exponent_field d * 2 ^ 52 + mantissa_field d.
Proof.
  intros Hd; rewrite (sign_field_spec d Hd).
  unfold uint64, exponent_field, mantissa_field in *.
  pose proof (Z.div_mod d (2 ^ 52) ltac:(lia)) as H1.
  pose proof (Z.mod_pos_bound d (2 ^ 52) ltac:(lia)) as B1.
  pose proof (Z.div_mod (d / 2 ^ 52) (2 ^ 11) ltac:(lia)) as H2.
  pose proof (Z.mod_pos_bound (d / 2 ^ 52) (2 ^ 11) ltac:(lia)) as B2.
  assert (Hq : d / 2 ^ 52 / 2 ^ 11 = d / 2 ^ 63).
  { rewrite Z.div_div by lia; reflexivity. }
  rewrite Hq in H2.
  destruct (Z.leb_spec (2 ^ 63) d) as [H|H].
  - replace (d / 2 ^ 63) with 1 in H2; [lia|].
    apply Z.div_unique with (r := d - 2 ^ 63); lia.
  - rewrite (Z.div_small d (2 ^ 63)) in H2 by lia. lia.
Qed.

Lemma land_ExponentBits (d : double) :
  Z.land d ExponentBits = exponent_field d * 2 ^ 52.
Proof.
  unfold exponent_field.
  rewrite <- Z.land_ones, <- Z.shiftr_div_pow2, <- Z.shiftl_mul_pow2 by lia.
  change ExponentBits with (Z.shiftl (Z.ones 11) 52).
  apply Z.bits_inj'; intros n Hn.
  rewrite Z.land_spec, !Z.shiftl_spec, Z.land_spec by lia.
  destruct (Z.ltb_spec n 52) as [H|H].
  - rewrite (Z.testbit_neg_r (Z.ones 11)) by lia.
    rewrite !Bool.andb_false_r; reflexivity.
  - rewrite Z.shiftr_spec by lia.
    replace (n - 52 + 52) with n by lia; reflexivity.
Qed.

Lemma extract_exponent (d : double) :
  Z.shiftr (Z.land d ExponentBits) ExponentShift = exponent_field d.
Proof.
  rewrite land_ExponentBits; unfold ExponentShift.
  rewrite Z.shiftr_div_pow2 by lia.
  apply Z.div_mul; lia.
Qed.

Lemma land_SignificandBits (d : double) :
  Z.land d SignificandBits = mantissa_field d.
Proof.
  change SignificandBits with (Z.ones 52).
  rewrite Z.land_ones by lia; reflexivity.
Qed.

Lemma land_SignBit (d : double) :
  (Z.land d SignBit =? 0) = negb (sign_field d).
Proof.
  unfold sign_field; change SignBit with (2 ^ 63).
  destruct (Z.testbit d 63) eqn:Hb; cbn [negb].
  - apply Z.eqb_neq; intros H0.
    assert (Hc : Z.testbit (Z.land d (2 ^ 63)) 63 = true).
    { rewrite Z.land_spec, Hb, Z.pow2_bits_true by lia; reflexivity. }
    rewrite H0, Z.bits_0 in Hc; discriminate.
  - apply Z.eqb_eq, Z.bits_inj'; intros n Hn.
    rewrite Z.land_spec, Z.bits_0.
    destruct (Z.eq_dec n 63) as [->|Hne].
    + rewrite Hb; reflexivity.
    + rewrite Z.pow2_bits_false by lia. apply Bool.andb_false_r.
Qed.

Lemma IsFinite_spec (d : double) :
  IsFinite d = negb (exponent_field d =? 2047).
Proof.
  unfold IsFinite; rewrite land_ExponentBits; f_equal.
  pose proof (exponent_field_range d).
  change ExponentBits with (2047 * 2 ^ 52).
  destruct (Z.eqb_spec (exponent_field d) 2047) as [->|H1]; [apply Z.eqb_refl|].
  apply Z.eqb_neq; lia.
Qed.

Lemma IsNaN_spec (d : double) :
  IsNaN d = (exponent_field d =? 2047) && negb (mantissa_field d =? 0).
Proof.
  pose proof (IsFinite_spec d) as H; unfold IsFinite in H.
  apply (f_equal negb) in H; rewrite !Bool.negb_involutive in H.
  unfold IsNaN; rewrite H, land_SignificandBits; reflexivity.
Qed.

Lemma IsInfinite_spec (d : double) :
  IsInfinite d = (exponent_field d =? 2047) && (mantissa_field d =? 0).
Proof.
  pose proof (IsFinite_spec d) as H; unfold IsFinite in H.
  apply (f_equal negb) in H; rewrite !Bool.negb_involutive in H.
  unfold IsInfinite; rewrite H, land_SignificandBits; reflexivity.
Qed.

(** ** The value of a double *)

Lemma Qpow2_nonneg (k : Z) : 0 <= k -> (2 ^ k == inject_Z (2 ^ k))%Q.
Proof. intros Hk; symmetry; apply (Zpower_Qpower 2 k Hk). Qed.

Lemma Qpow2_neg (k : Z) : 0 <= k -> (2 ^ (- k) == / inject_Z (2 ^ k))%Q.
Proof. intros Hk; rewrite Qpower_opp, (Qpow2_nonneg k Hk); reflexivity. Qed.

Lemma Qpow2_pos (k : Z) : (0 < 2 ^ k)%Q.
Proof. apply Qpower_0_lt; reflexivity. Qed.

Lemma Qfloor_mul_pow2 (a k : Z) :
  Qfloor (inject_Z a * 2 ^ k) = if 0 <=? k then a * 2 ^ k else a / 2 ^ (- k).
Proof.
  destruct (Z.leb_spec 0 k) as [Hk|Hk].
  - rewrite (Qpow2_nonneg k Hk), <- inject_Z_mult. apply Qfloor_Z.
  - replace k with (- - k) at 1 by lia.
    rewrite (Qpow2_neg (- k)) by lia.
    symmetry; apply Zdiv_Qdiv.
Qed.

Lemma magnitude_nonneg (d : double) : (0 <= magnitude d)%Q.
Proof.
  pose proof (mantissa_field_range d) as Hm.
  unfold magnitude; destruct (exponent_field d =? 0);
    (apply Qmult_le_0_compat; [|apply Qlt_le_weak, Qpow2_pos]);
    (rewrite <- (Zle_Qle 0); lia).
Qed.

Lemma Qabs_value (d : double) : (Qabs (value d) == magnitude d)%Q.
Proof.
  unfold value; destruct (sign_field d).
  - rewrite Qabs_opp. apply Qabs_pos, magnitude_nonneg.
  - apply Qabs_pos, magnitude_nonneg.
Qed.

Lemma Qfloor_magnitude (d : double) : Qfloor (magnitude d) = integer_part d.
Proof.
  pose proof (mantissa_field_range d) as Hm.
  unfold magnitude, integer_part; cbv zeta.
  destruct (Z.eqb_spec (exponent_field d) 0) as [HE|HE].
  - rewrite Qfloor_mul_pow2; cbn [Z.leb Z.compare Z.opp].
    apply Z.div_small. split; [lia|].
    apply Z.lt_trans with (2 ^ 52); [lia|]. apply pow2_lt; lia.
  - rewrite Qfloor_mul_pow2.
    destruct (Z.leb_spec 1075 (exponent_field d));
      destruct (Z.leb_spec 0 (exponent_field d - 1075)); try lia;
      first [reflexivity | do 2 f_equal; lia].
Qed.

Lemma d2_integer_part (d : double) :
  d2 d = (if sign_field d then -1 else 1) * integer_part d.
Proof. unfold d2; rewrite Qabs_value, Qfloor_magnitude; reflexivity. Qed.

(** ** ToUintWidth, unfolded *)

Lemma ResultWidth_cases (T : UnsignedType) : ResultWidth T = 32 \/ ResultWidth T = 64.
Proof. destruct T; [left|right]; reflexivity. Qed.

Lemma ToUintWidth_eq (T : UnsignedType) (d : double) :
  ToUintWidth T d =
  let e := exponent_field d - 1023 in
  let W := ResultWidth T in
  if e <? 0 then 0
  else if e >=? 52 + W then 0
  else
    let r := shifted_bits d e mod 2 ^ W in
    let r := if e <? W then (r mod 2 ^ e + 2 ^ e) mod 2 ^ W else r in
    if sign_field d then (- r) mod 2 ^ W else r.
Proof.
  unfold ToUintWidth, ToUintWidth_logged, decoded_exponent, shl, shr, bind, ret,
    BitwiseCast, shifted_bits, wrap_unsigned.
  rewrite extract_exponent, land_SignBit, Bool.negb_involutive.
  unfold ExponentBias, ExponentShift; cbv zeta.
  set (e := exponent_field d - 1023). set (W := ResultWidth T).
  destruct (Z.ltb_spec e 0) as [He|He]; [reflexivity|].
  destruct (e >=? 52 + W) eqn:Hhi; [reflexivity|].
  assert (HW : W = 32 \/ W = 64) by apply ResultWidth_cases.
  assert (Hmask : forall r, e < W ->
            Z.land r ((Z.shiftl 1 e mod 2 ^ W - 1) mod 2 ^ W) = r mod 2 ^ e).
  { intros r HeW. rewrite Z.shiftl_1_l.
    assert (2 ^ e < 2 ^ W) by (apply pow2_lt; lia).
    pose proof (pow2_pos e He).
    rewrite (Z.mod_small (2 ^ e)) by lia.
    rewrite (Z.mod_small (2 ^ e - 1)) by lia.
    rewrite <- Z.land_ones by lia. f_equal.
    rewrite Z.ones_equiv; lia. }
  assert (Hneg : forall r, Z.lnot r + 1 = - r) by (intros; unfold Z.lnot; lia).
  destruct (e >? 52) eqn:H52; destruct (Z.ltb_spec e W) as [HeW|HeW]; cbn [fst snd];
    rewrite ?Hmask, ?Hneg, ?Z.shiftl_1_l, ?Z.shiftl_mul_pow2, ?Z.shiftr_div_pow2 by lia;
    try reflexivity.
  all: assert (2 ^ e < 2 ^ W) by (apply pow2_lt; lia);
       pose proof (pow2_pos e He);
       rewrite (Z.mod_small (2 ^ e) (2 ^ W)) by lia; reflexivity.
Qed.

(** ** The congruence

    Above the binary point the shifted pattern is [hi * 2^e + F], where
    [F < 2^e] holds the mantissa bits of the integer part [2^e + F] and
    [hi] the sign and exponent bits that the mask removes. *)

Lemma mod_pow2_mod_pow2 (x a b : Z) : 0 <= a <= b -> (x mod 2 ^ b) mod 2 ^ a = x mod 2 ^ a.
Proof.
  intros H. apply Z.mod_mod_divide.
  exists (2 ^ (b - a)). rewrite (pow2_split a b H); lia.
Qed.

Lemma mod_pow2_high (hi F e W : Z) : 0 <= W <= e -> (hi * 2 ^ e + F) mod 2 ^ W = F mod 2 ^ W.
Proof.
  intros H. rewrite (pow2_split W e H).
  replace (hi * (2 ^ W * 2 ^ (e - W)) + F) with (F + hi * 2 ^ (e - W) * 2 ^ W) by lia.
  apply Z.mod_add. pose proof (pow2_pos W); lia.
Qed.

Lemma shifted_bits_split (d : double) (e W : Z) :
  uint64 d -> 0 <= e < 52 + W -> 0 <= W <= 64 -> exponent_field d = e + 1023 ->
  exists hi F,
    0 <= F < 2 ^ e /\
    shifted_bits d e mod 2 ^ W = (hi * 2 ^ e + F) mod 2 ^ W /\
    integer_part d = 2 ^ e + F.
Proof.
  intros Hd He HW HE.
  pose proof (mantissa_field_range d) as Hm.
  pose proof (Z.div_mod d (2 ^ 52) ltac:(lia)) as Hdm.
  fold (mantissa_field d) in Hdm.
  unfold shifted_bits, integer_part; cbv zeta. rewrite HE.
  destruct (Z.eqb_spec (e + 1023) 0) as [?|_]; [lia|].
  exists (d / 2 ^ 52).
  destruct (Z.gtb_spec e 52) as [H52|H52].
  - exists (mantissa_field d * 2 ^ (e - 52)).
    pose proof (pow2_pos (e - 52) ltac:(lia)) as Hk.
    pose proof (pow2_split 52 e ltac:(lia)) as Hs.
    destruct (Z.leb_spec 1075 (e + 1023)); [|lia].
    replace (e + 1023 - 1075) with (e - 52) by lia.
    repeat split; try nia.
    rewrite mod_pow2_mod_pow2 by lia. f_equal. nia.
  - exists (mantissa_field d / 2 ^ (52 - e)).
    pose proof (pow2_pos (52 - e) ltac:(lia)) as Hk.
    pose proof (pow2_pos e ltac:(lia)) as Hpe.
    assert (Hs : 2 ^ 52 = 2 ^ e * 2 ^ (52 - e)).
    { rewrite <- Z.pow_add_r by lia. f_equal; lia. }
    assert (Hdiv : forall a, (a * 2 ^ e * 2 ^ (52 - e) + mantissa_field d) / 2 ^ (52 - e)
                             = a * 2 ^ e + mantissa_field d / 2 ^ (52 - e)).
    { intros a. apply Z.div_add_l; lia. }
    assert (HF : 0 <= mantissa_field d / 2 ^ (52 - e) < 2 ^ e).
    { split; [apply Z.div_pos; lia|]. apply Z.div_lt_upper_bound; lia. }
    assert (Hd' : d = d / 2 ^ 52 * 2 ^ e * 2 ^ (52 - e) + mantissa_field d).
    { rewrite <- Z.mul_assoc, <- Hs; lia. }
    split; [exact HF|]. split.
    + rewrite <- Hdiv, <- Hd'. reflexivity.
    + destruct (Z.leb_spec 1075 (e + 1023)).
      * assert (e = 52) by lia; subst e.
        replace (52 + 1023 - 1075) with 0 by lia.
        change (52 - 52) with 0. change (2 ^ 0) with 1.
        rewrite Z.div_1_r. lia.
      * replace (1075 - (e + 1023)) with (52 - e) by lia.
        specialize (Hdiv 1). rewrite Z.mul_1_l in Hdiv.
        rewrite <- Hdiv. f_equal. lia.
Qed.

(** On a finite double the result is the residue of [d2]. *)
Lemma ToUintWidth_congruent (T : UnsignedType) (d : double) :
  uint64 d -> IsFinite d = true ->
  ToUintWidth T d = d2 d mod 2 ^ ResultWidth T.
Proof.
  intros Hd Hfin.
  rewrite IsFinite_spec in Hfin. apply Bool.negb_true_iff, Z.eqb_neq in Hfin.
  pose proof (exponent_field_range d) as HE.
  pose proof (mantissa_field_range d) as Hm.
  rewrite ToUintWidth_eq, d2_integer_part; cbv zeta.
  set (e := exponent_field d - 1023). set (W := ResultWidth T).
  assert (HW : W = 32 \/ W = 64) by apply ResultWidth_cases.
  assert (HWpos : 0 < 2 ^ W) by (apply pow2_pos; lia).
  destruct (Z.ltb_spec e 0) as [He|He].
  { (* the magnitude is below one *)
    assert (Hip : integer_part d = 0).
    { unfold integer_part; cbv zeta.
      destruct (Z.eqb_spec (exponent_field d) 0); [reflexivity|].
      destruct (Z.leb_spec 1075 (exponent_field d)); [lia|].
      apply Z.div_small. split; [lia|].
      apply Z.lt_le_trans with (2 ^ 53); [change (2 ^ 53) with (2 * 2 ^ 52); lia|].
      apply pow2_le; lia. }
    rewrite Hip, Z.mul_0_r. reflexivity. }
  destruct (Z.geb_spec e (52 + W)) as [Hhi|Hhi].
  { (* every bit of the integer part lies above the result *)
    assert (Hip : integer_part d = (2 ^ 52 + mantissa_field d) * 2 ^ (e - 52 - W) * 2 ^ W).
    { unfold integer_part; cbv zeta.
      destruct (Z.eqb_spec (exponent_field d) 0); [lia|].
      destruct (Z.leb_spec 1075 (exponent_field d)); [|lia].
      rewrite <- Z.mul_assoc, <- Z.pow_add_r by lia. do 2 f_equal. lia. }
    rewrite Hip, !Z.mul_assoc, Z.mod_mul by lia. reflexivity. }
  destruct (shifted_bits_split d e W Hd ltac:(lia) ltac:(lia) ltac:(lia))
    as (hi & F & HF & Hsh & Hip).
  rewrite Hip.
  assert (Hr : (if e <? W
                then ((shifted_bits d e mod 2 ^ W) mod 2 ^ e + 2 ^ e) mod 2 ^ W
                else shifted_bits d e mod 2 ^ W) = (2 ^ e + F) mod 2 ^ W).
  { destruct (Z.ltb_spec e W) as [HeW|HeW].
    - rewrite mod_pow2_mod_pow2 by lia.
      rewrite <- (mod_pow2_mod_pow2 (shifted_bits d e) e W), Hsh, mod_pow2_mod_pow2 by lia.
      rewrite (Z.add_comm (hi * 2 ^ e) F), Z.mod_add, (Z.mod_small F) by lia.
      f_equal; lia.
    - rewrite Hsh, mod_pow2_high by lia.
      replace (2 ^ e + F) with (1 * 2 ^ e + F) by lia.
      rewrite mod_pow2_high by lia. reflexivity. }
  rewrite Hr.
  destruct (sign_field d).
  - replace (-1 * (2 ^ e + F)) with (0 - (2 ^ e + F)) by lia.
    rewrite <- (Zminus_mod_idemp_r 0 (2 ^ e + F)). reflexivity.
  - rewrite Z.mul_1_l. reflexivity.
Qed.

Lemma decoded_exponent_eq (d : double) :
  fst (decoded_exponent d) = exponent_field d - 1023.
Proof.
  unfold decoded_exponent, shr, bind, ret, BitwiseCast; cbn [fst].
  rewrite extract_exponent; reflexivity.
Qed.

Lemma integer_part_below_one (d : double) :
  exponent_field d < 1023 -> integer_part d = 0.
Proof.
  intros HE. pose proof (mantissa_field_range d) as Hm.
  unfold integer_part; cbv zeta.
  destruct (Z.eqb_spec (exponent_field d) 0); [reflexivity|].
  destruct (Z.leb_spec 1075 (exponent_field d)); [lia|].
  apply Z.div_small. split; [lia|].
  apply Z.lt_le_trans with (2 ^ 53); [change (2 ^ 53) with (2 * 2 ^ 52); lia|].
  apply pow2_le; lia.
Qed.

Lemma integer_part_from_one (d : double) :
  1023 <= exponent_field d -> 1 <= integer_part d.
Proof.
  intros HE. pose proof (mantissa_field_range d) as Hm.
  unfold integer_part; cbv zeta.
  destruct (Z.eqb_spec (exponent_field d) 0); [lia|].
  destruct (Z.leb_spec 1075 (exponent_field d)).
  - pose proof (pow2_pos (exponent_field d - 1075) ltac:(lia)). nia.
  - pose proof (pow2_pos (1075 - exponent_field d) ltac:(lia)).
    apply Z.div_le_lower_bound; [lia|].
    apply Z.le_trans with (2 ^ 52); [|lia].
    rewrite Z.mul_1_r. apply pow2_le; lia.
Qed.

Lemma magnitude_below_one (d : double) :
  (magnitude d < 1)%Q <-> integer_part d <= 0.
Proof.
  rewrite <- Qfloor_magnitude. split; intros H.
  - assert (Hlt : (inject_Z (Qfloor (magnitude d)) < inject_Z 1)%Q).
    { apply Qle_lt_trans with (magnitude d); [apply Qfloor_le | exact H]. }
    rewrite <- Zlt_Qlt in Hlt. lia.
  - apply Qlt_le_trans with (inject_Z (Qfloor (magnitude d) + 1)); [apply Qlt_floor|].
    change 1%Q with (inject_Z 1). rewrite <- Zle_Qle. lia.
Qed.

Lemma ToUintWidth_range (T : UnsignedType) (d : double) :
  0 <= ToUintWidth T d < 2 ^ ResultWidth T.
Proof.
  rewrite ToUintWidth_eq; cbv zeta.
  set (e := exponent_field d - 1023). set (W := ResultWidth T).
  assert (HW : W = 32 \/ W = 64) by apply ResultWidth_cases.
  assert (HWpos : 0 < 2 ^ W) by (apply pow2_pos; lia).
  destruct (e <? 0); [lia|].
  destruct (e >=? 52 + W); [lia|].
  destruct (sign_field d); [apply Z.mod_pos_bound; lia|].
  destruct (e <? W); apply Z.mod_pos_bound; lia.
Qed.

Lemma ToUintWidth_nonfinite (T : UnsignedType) (d : double) :
  IsFinite d = false -> ToUintWidth T d = 0.
Proof.
  rewrite IsFinite_spec. intros H. apply Bool.negb_false_iff, Z.eqb_eq in H.
  rewrite ToUintWidth_eq, H; cbv zeta.
  destruct T; reflexivity.
Qed.

Lemma ToUintWidth_shifts_eq (T : UnsignedType) (d : double) :
  ToUintWidth_shifts T d =
  let e := fst (decoded_exponent d) in
  let W := ResultWidth T in
  ShiftEvent Right 64 52 ::
    (if (e <? 0) || (e >=? 52 + W) then []
     else (if e >? 52 then ShiftEvent Left 64 (e - 52) else ShiftEvent Right 64 (52 - e))
          :: (if e <? W then [ShiftEvent Left W e] else [])).
Proof.
  rewrite decoded_exponent_eq.
  unfold ToUintWidth_shifts, ToUintWidth_logged, decoded_exponent, shl, shr, bind, ret,
    BitwiseCast.
  rewrite extract_exponent. unfold ExponentBias, ExponentShift; cbv zeta.
  destruct (exponent_field d - 1023 <? 0); [reflexivity|].
  destruct (exponent_field d - 1023 >=? 52 + ResultWidth T); [reflexivity|].
  destruct (exponent_field d - 1023 >? 52);
    destruct (exponent_field d - 1023 <? ResultWidth T); reflexivity.
Qed.

(** ** The unsigned conversions *)

(** C1: for every double [d] and both widths, [ToUintWidth] returns the one
    value in [[0, 2^W)] congruent modulo [2^W] to [sign(d) * floor(abs(d))]
    when [d] is finite, and 0 when [d] is an infinity or a NaN; [ToUint32]
    and [ToUint64] are its instances at 32 and 64 bits. *)
Theorem ToUintWidth_congruent_value (d : double) :
  uint64 d ->
  (forall T : UnsignedType,
      0 <= ToUintWidth T d < 2 ^ ResultWidth T /\
      ToUintWidth T d = if IsFinite d then d2 d mod 2 ^ ResultWidth T else 0) /\
  ToUint32 d = (if IsFinite d then d2 d mod 2 ^ 32 else 0) /\
  ToUint64 d = (if IsFinite d then d2 d mod 2 ^ 64 else 0).
Proof.
  intros Hd.
  assert (H : forall T, ToUintWidth T d
                        = if IsFinite d then d2 d mod 2 ^ ResultWidth T else 0).
  { intros T. destruct (IsFinite d) eqn:Hfin.
    - apply ToUintWidth_congruent; assumption.
    - apply ToUintWidth_nonfinite; assumption. }
  split; [|split].
  - intros T. split; [apply ToUintWidth_range | apply H].
  - apply (H uint32_t).
  - apply (H uint64_t).
Qed.

Lemma ToUintWidth_congruent_value_witness :
  uint64 0xBFF0000000000000 /\ ToUint32 0xBFF0000000000000 = 4294967295.
Proof.
  assert (Hd : uint64 0xBFF0000000000000) by (unfold uint64; lia).
  split; [exact Hd|].
  destruct (ToUintWidth_congruent_value _ Hd) as (_ & H32 & _).
  rewrite H32. vm_compute. reflexivity.
Defined.

(** C2: [ToUintWidth] returns 0 before any further shift exactly when the
    decoded exponent is negative or at least [52 + W].  The first case is
    that of the finite doubles of magnitude below one, the zeros and the
    subnormals among them; the second one holds the infinities and the
    NaNs. *)
Theorem ToUintWidth_early_returns (T : UnsignedType) (d : double) :
  uint64 d ->
  let exp := fst (decoded_exponent d) in
  let W := ResultWidth T in
  (exp < 0 -> ToUintWidth T d = 0) /\
  (exp >= 52 + W -> ToUintWidth T d = 0) /\
  (ToUintWidth_shifts T d = [ShiftEvent Right 64 52] <-> exp < 0 \/ exp >= 52 + W) /\
  (exp < 0 <-> IsFinite d = true /\ (Qabs (value d) < 1)%Q) /\
  (exponent_field d = 0 -> exp < 0) /\
  (IsFinite d = false -> exp >= 52 + W) /\
  (IsFinite d = true -> exp >= 52 + W -> d2 d mod 2 ^ W = 0).
Proof.
  intros Hd exp W.
  assert (Hexp : exp = exponent_field d - 1023) by apply decoded_exponent_eq.
  assert (HW : W = 32 \/ W = 64) by apply ResultWidth_cases.
  pose proof (exponent_field_range d) as HE.
  pose proof (ToUintWidth_eq T d) as Heq. cbv zeta in Heq.
  fold W in Heq. rewrite <- Hexp in Heq.
  assert (Hhigh : exp >= 52 + W -> ToUintWidth T d = 0).
  { intros H. rewrite Heq. destruct (Z.ltb_spec exp 0); [reflexivity|].
    destruct (Z.geb_spec exp (52 + W)); [reflexivity|lia]. }
  split; [|split; [|split; [|split; [|split; [|split]]]]].
  - intros H. rewrite Heq. destruct (Z.ltb_spec exp 0); [reflexivity|lia].
  - exact Hhigh.
  - rewrite ToUintWidth_shifts_eq; cbv zeta. fold exp W.
    destruct (Z.ltb_spec exp 0); destruct (Z.geb_spec exp (52 + W)); cbn [orb];
      split; intros H'; try reflexivity; try discriminate; lia.
  - rewrite IsFinite_spec, Qabs_value, magnitude_below_one. split.
    + intros H. split.
      * apply Bool.negb_true_iff, Z.eqb_neq. lia.
      * rewrite integer_part_below_one; lia.
    + intros [_ H].
      destruct (Z.lt_ge_cases (exponent_field d) 1023) as [Hlt|Hge]; [lia|].
      pose proof (integer_part_from_one d Hge). lia.
  - lia.
  - rewrite IsFinite_spec. intros H.
    apply Bool.negb_false_iff, Z.eqb_eq in H. lia.
  - intros Hfin H. subst W. rewrite <- (ToUintWidth_congruent T d Hd Hfin).
    apply Hhigh, H.
Qed.

Lemma ToUintWidth_early_returns_witness :
  fst (decoded_exponent 0x3FE0000000000000) < 0 /\
  ToUintWidth uint32_t 0x3FE0000000000000 = 0.
Proof.
  assert (Hd : uint64 0x3FE0000000000000) by (unfold uint64; lia).
  assert (He : fst (decoded_exponent 0x3FE0000000000000) < 0) by (vm_compute; reflexivity).
  split; [exact He|].
  exact (proj1 (ToUintWidth_early_returns uint32_t _ Hd) He).
Defined.

(** C6: every shift [ToUintWidth] performs has an amount that is
    non-negative and below the width of its operand.  Past the two guards
    these are the shift of the 64-bit pattern, left by [exponent - 52] or
    right by [52 - exponent], both within [[0, 63]], and the shift that
    builds [implicitOne], performed only when [exponent < W]. *)
Theorem ToUintWidth_shifts_defined (T : UnsignedType) (d : double) :
  uint64 d ->
  let exponent := fst (decoded_exponent d) in
  let W := ResultWidth T in
  Forall shift_defined (ToUintWidth_shifts T d) /\
  (0 <= exponent < 52 + W ->
   ToUintWidth_shifts T d =
     ShiftEvent Right 64 52
     :: (if exponent >? 52
         then ShiftEvent Left 64 (exponent - 52)
         else ShiftEvent Right 64 (52 - exponent))
     :: (if exponent <? W then [ShiftEvent Left W exponent] else []) /\
   (exponent > 52 -> 0 <= exponent - 52 <= 63) /\
   (exponent <= 52 -> 0 <= 52 - exponent <= 63)).
Proof.
  intros Hd exponent W.
  assert (HW : W = 32 \/ W = 64) by apply ResultWidth_cases.
  pose proof (ToUintWidth_shifts_eq T d) as Heq. cbv zeta in Heq.
  fold exponent W in Heq.
  split.
  - rewrite Heq.
    constructor; [unfold shift_defined; cbn [sh_amount sh_width]; lia|].
    destruct (Z.ltb_spec exponent 0); [constructor|].
    destruct (Z.geb_spec exponent (52 + W)); cbn [orb]; [constructor|].
    constructor.
    + destruct (Z.gtb_spec exponent 52); unfold shift_defined;
        cbn [sh_amount sh_width]; lia.
    + destruct (Z.ltb_spec exponent W); constructor; [|constructor].
      unfold shift_defined; cbn [sh_amount sh_width]; lia.
  - intros Hrange. split; [|lia].
    rewrite Heq.
    destruct (Z.ltb_spec exponent 0); [lia|].
    destruct (Z.geb_spec exponent (52 + W)); [lia|]. reflexivity.
Qed.

Lemma ToUintWidth_shifts_defined_witness :
  uint64 0xC1EFFFFFFFE00000 /\
  ToUintWidth_shifts uint64_t 0xC1EFFFFFFFE00000 =
    [ShiftEvent Right 64 52; ShiftEvent Right 64 21; ShiftEvent Left 64 31].
Proof.
  assert (Hd : uint64 0xC1EFFFFFFFE00000) by (unfold uint64; lia).
  split; [exact Hd|].
  destruct (ToUintWidth_shifts_defined uint64_t _ Hd) as [_ H].
  destruct H as [H _]; [vm_compute; split; [discriminate|reflexivity]|].
  rewrite H. vm_compute. reflexivity.
Defined.

(** ** The signed conversions *)

Lemma SignedWidth_unsigned (T : SignedType) :
  CHAR_BIT * sizeof_signed T = ResultWidth (MakeUnsigned T).
Proof. destruct T; reflexivity. Qed.

Lemma wrap_signed_small (w x : Z) :
  0 < w -> - 2 ^ (w - 1) <= x < 2 ^ (w - 1) -> wrap_signed w x = x.
Proof.
  intros Hw Hx. unfold wrap_signed.
  assert (H2 : 2 ^ w = 2 * 2 ^ (w - 1)).
  { replace w with (1 + (w - 1)) at 1 by lia. rewrite Z.pow_add_r by lia. reflexivity. }
  rewrite Z.mod_small by lia. lia.
Qed.

Lemma wrap_signed_high (w x : Z) :
  0 < w -> 2 ^ (w - 1) <= x < 2 ^ w -> wrap_signed w x = x - 2 ^ w.
Proof.
  intros Hw Hx. unfold wrap_signed.
  assert (H2 : 2 ^ w = 2 * 2 ^ (w - 1)).
  { replace w with (1 + (w - 1)) at 1 by lia. rewrite Z.pow_add_r by lia. reflexivity. }
  replace (x + 2 ^ (w - 1)) with (x - 2 ^ (w - 1) + 1 * 2 ^ w) by lia.
  rewrite Z.mod_add by lia. rewrite Z.mod_small by lia. lia.
Qed.

Lemma ToIntWidth_eq (T : SignedType) (d : double) :
  let W := CHAR_BIT * sizeof_signed T in
  let u := ToUintWidth (MakeUnsigned T) d in
  ToIntWidth T d = if u <=? 2 ^ (W - 1) - 1 then u else u - 2 ^ W.
Proof.
  intros W u.
  pose proof (ToUintWidth_range (MakeUnsigned T) d) as Hu. fold u in Hu.
  rewrite <- SignedWidth_unsigned in Hu. fold W in Hu.
  assert (HW : 0 < W) by (destruct T; reflexivity).
  assert (Hmax : wrap_signed W (wrap_unsigned 64 (wrap_unsigned 64 (Z.shiftl 1 (W - 1)) - 1))
                 = 2 ^ (W - 1) - 1).
  { destruct T; reflexivity. }
  assert (H2 : 2 ^ W = 2 * 2 ^ (W - 1)).
  { replace W with (1 + (W - 1)) at 1 by lia. rewrite Z.pow_add_r by lia. reflexivity. }
  pose proof (pow2_pos (W - 1) ltac:(lia)) as Hp.
  unfold ToIntWidth; cbv zeta. fold W u. rewrite Hmax.
  rewrite (wrap_signed_small W (- (2 ^ (W - 1) - 1))) by lia.
  rewrite (wrap_signed_small W (- (2 ^ (W - 1) - 1) - 1)) by lia.
  unfold wrap_unsigned at 1. rewrite (Z.mod_small (2 ^ (W - 1) - 1)) by lia.
  destruct (Z.leb_spec u (2 ^ (W - 1) - 1)) as [Hle|Hgt].
  - apply wrap_signed_small; lia.
  - unfold wrap_unsigned. rewrite (Z.mod_small (u - (2 ^ (W - 1) - 1))) by lia.
    destruct (Z.eq_dec u (2 ^ W - 1)) as [Hu1|Hu1].
    + (* [u - MaxValue] is [2^(W-1)], which the cast wraps to [MinValue] *)
      rewrite (wrap_signed_high W (u - (2 ^ (W - 1) - 1))) by lia.
      replace (- (2 ^ (W - 1) - 1) - 1 + (u - (2 ^ (W - 1) - 1) - 2 ^ W)) with (- 2 ^ W) by lia.
      replace (wrap_signed W (- 2 ^ W)) with 0.
      * rewrite wrap_signed_small; lia.
      * unfold wrap_signed.
        replace (- 2 ^ W + 2 ^ (W - 1)) with (2 ^ (W - 1) + (-1) * 2 ^ W) by lia.
        rewrite Z.mod_add by lia. rewrite Z.mod_small by lia. lia.
    + rewrite (wrap_signed_small W (u - (2 ^ (W - 1) - 1))) by lia.
      rewrite (wrap_signed_small W (- (2 ^ (W - 1) - 1) - 1 + (u - (2 ^ (W - 1) - 1)))) by lia.
      rewrite wrap_signed_small; lia.
Qed.

(** C3: for both signed widths, [ToIntWidth] is the unsigned result [u]
    itself when [u <= 2^(W-1) - 1] and [u - 2^W] otherwise: the integer of
    the signed range whose two's-complement pattern is [u]. *)
Theorem ToIntWidth_reinterprets (T : SignedType) (d : double) :
  let W := CHAR_BIT * sizeof_signed T in
  let u := ToUintWidth (MakeUnsigned T) d in
  ToIntWidth T d = (if u <=? 2 ^ (W - 1) - 1 then u else u - 2 ^ W) /\
  - 2 ^ (W - 1) <= ToIntWidth T d <= 2 ^ (W - 1) - 1 /\
  ToIntWidth T d mod 2 ^ W = u.
Proof.
  intros W u.
  pose proof (ToUintWidth_range (MakeUnsigned T) d) as Hu. fold u in Hu.
  rewrite <- SignedWidth_unsigned in Hu. fold W in Hu.
  assert (HW : 0 < W) by (destruct T; reflexivity).
  assert (H2 : 2 ^ W = 2 * 2 ^ (W - 1)).
  { replace W with (1 + (W - 1)) at 1 by lia. rewrite Z.pow_add_r by lia. reflexivity. }
  pose proof (ToIntWidth_eq T d) as Heq. cbv zeta in Heq. fold W u in Heq.
  rewrite Heq. split; [reflexivity|].
  destruct (Z.leb_spec u (2 ^ (W - 1) - 1)) as [Hle|Hgt].
  - split; [lia|]. apply Z.mod_small; lia.
  - split; [lia|].
    replace (u - 2 ^ W) with (u + (-1) * 2 ^ W) by lia.
    rewrite Z.mod_add by lia. apply Z.mod_small; lia.
Qed.

Lemma ToIntWidth_in_range (T : SignedType) (d : double) :
  uint64 d -> IsFinite d = true ->
  let W := CHAR_BIT * sizeof_signed T in
  - 2 ^ (W - 1) <= d2 d <= 2 ^ (W - 1) - 1 ->
  ToIntWidth T d = d2 d.
Proof.
  intros Hd Hfin W Hr.
  assert (HW : 0 < W) by (destruct T; reflexivity).
  assert (H2 : 2 ^ W = 2 * 2 ^ (W - 1)).
  { replace W with (1 + (W - 1)) at 1 by lia. rewrite Z.pow_add_r by lia. reflexivity. }
  pose proof (pow2_pos (W - 1) ltac:(lia)) as Hp.
  pose proof (ToIntWidth_eq T d) as Heq. cbv zeta in Heq. fold W in Heq.
  rewrite Heq, (ToUintWidth_congruent _ d Hd Hfin), <- SignedWidth_unsigned. fold W.
  destruct (Z.le_gt_cases 0 (d2 d)) as [Hpos|Hneg].
  - rewrite Z.mod_small by lia.
    destruct (Z.leb_spec (d2 d) (2 ^ (W - 1) - 1)); lia.
  - assert (Hmod : d2 d mod 2 ^ W = d2 d + 2 ^ W).
    { replace (d2 d) with (d2 d + 2 ^ W + (-1) * 2 ^ W) at 1 by lia.
      rewrite Z.mod_add by lia. apply Z.mod_small; lia. }
    rewrite Hmod.
    destruct (Z.leb_spec (d2 d + 2 ^ W) (2 ^ (W - 1) - 1)); lia.
Qed.

(** C9: when [sign(d) * floor(abs(d))] lies in the int32 range, [ToInt64]
    and [ToInt32] return the same integer, that value itself; on the
    infinities and the NaNs both return 0. *)
Theorem ToInt64_agrees_with_ToInt32 (d : double) :
  uint64 d ->
  (IsFinite d = true -> - 2 ^ 31 <= d2 d <= 2 ^ 31 - 1) ->
  ToInt64 d = ToInt32 d /\ (IsFinite d = true -> ToInt32 d = d2 d).
Proof.
  intros Hd Hr. unfold ToInt64, ToInt32.
  destruct (IsFinite d) eqn:Hfin.
  - specialize (Hr eq_refl).
    rewrite (ToIntWidth_in_range int32_t d Hd Hfin) by exact Hr.
    rewrite (ToIntWidth_in_range int64_t d Hd Hfin).
    + split; [reflexivity|]. intros _; reflexivity.
    + change (CHAR_BIT * sizeof_signed int64_t - 1) with 63.
      assert (2 ^ 31 < 2 ^ 63) by (apply pow2_lt; lia). lia.
  - split; [|discriminate].
    pose proof (ToIntWidth_eq int32_t d) as H32.
    pose proof (ToIntWidth_eq int64_t d) as H64.
    cbv zeta in H32, H64.
    rewrite (ToUintWidth_nonfinite _ d Hfin) in H32.
    rewrite (ToUintWidth_nonfinite _ d Hfin) in H64.
    rewrite H32, H64. reflexivity.
Qed.

Lemma ToInt64_agrees_with_ToInt32_witness :
  uint64 0xC1E0000000000000 /\
  d2 0xC1E0000000000000 = - 2 ^ 31 /\
  ToInt64 0xC1E0000000000000 = ToInt32 0xC1E0000000000000.
Proof.
  assert (Hd : uint64 0xC1E0000000000000) by (unfold uint64; lia).
  assert (Hv : d2 0xC1E0000000000000 = - 2 ^ 31) by (vm_compute; reflexivity).
  assert (Hr : IsFinite 0xC1E0000000000000 = true ->
               - 2 ^ 31 <= d2 0xC1E0000000000000 <= 2 ^ 31 - 1).
  { intros _. rewrite Hv. lia. }
  split; [exact Hd|]. split; [exact Hv|].
  exact (proj1 (ToInt64_agrees_with_ToInt32 _ Hd Hr)).
Defined.

(** ** Integers as doubles *)

Lemma fields_of_sum (s : bool) (E m : Z) :
  0 <= E < 2048 -> 0 <= m < 2 ^ 52 ->
  let r := (if s then SignBit else 0) + E * 2 ^ 52 + m in
  uint64 r /\ sign_field r = s /\ exponent_field r = E /\ mantissa_field r = m.
Proof.
  intros HE Hm r.
  assert (Hr : uint64 r).
  { subst r; unfold uint64, SignBit; destruct s; lia. }
  split; [exact Hr|].
  assert (Hmant : mantissa_field r = m).
  { unfold mantissa_field. symmetry.
    apply Z.mod_unique with (q := (if s then 2048 else 0) + E); [lia|].
    subst r; unfold SignBit; destruct s; lia. }
  assert (Hdiv : r / 2 ^ 52 = (if s then 2048 else 0) + E).
  { symmetry. apply Z.div_unique with (r := m); [lia|].
    subst r; unfold SignBit; destruct s; lia. }
  split; [|split; [|exact Hmant]].
  - rewrite (sign_field_spec r Hr). subst r; unfold SignBit.
    destruct s; [apply Z.leb_le | apply Z.leb_gt]; lia.
  - unfold exponent_field. rewrite Hdiv. symmetry.
    apply Z.mod_unique with (q := if s then 1 else 0); [lia|].
    destruct s; lia.
Qed.

Lemma integer_part_nonneg (d : double) : 0 <= integer_part d.
Proof.
  pose proof (mantissa_field_range d) as Hm.
  pose proof (exponent_field_range d) as HE.
  unfold integer_part; cbv zeta.
  destruct (exponent_field d =? 0); [lia|].
  destruct (Z.leb_spec 1075 (exponent_field d)).
  - pose proof (pow2_pos (exponent_field d - 1075) ltac:(lia)). nia.
  - apply Z.div_pos; [lia|]. apply pow2_pos; lia.
Qed.

(** The significand of a representable integer fills exactly 53 bits. *)
Lemma significand_range (n : Z) :
  representable n ->
  let e := Z.log2 n in
  let significand := if e <=? 52 then n * 2 ^ (52 - e) else n / 2 ^ (e - 52) in
  0 <= e < 1024 /\ 2 ^ 52 <= significand < 2 ^ 53 /\
  (52 < e -> n = significand * 2 ^ (e - 52)).
Proof.
  intros [[Hpos Hlt] Hrep] e significand.
  pose proof (Z.log2_spec n Hpos) as Hlog. fold e in Hlog.
  pose proof (Z.log2_nonneg n) as He0. fold e in He0.
  assert (He : e < 1024) by (apply Z.log2_lt_pow2; assumption).
  unfold Z.succ in Hlog.
  assert (Hs : 2 ^ (e + 1) = 2 * 2 ^ e) by (rewrite Z.pow_add_r by lia; lia).
  split; [lia|]. subst significand.
  destruct (Z.leb_spec e 52) as [H52|H52].
  - pose proof (pow2_split e 52 ltac:(lia)) as Hsp.
    pose proof (pow2_pos (52 - e) ltac:(lia)).
    change (2 ^ 53) with (2 * 2 ^ 52). split; [nia|lia].
  - destruct Hrep as [?|Hmod]; [lia|]. fold e in Hmod.
    pose proof (pow2_split 52 e ltac:(lia)) as Hsp.
    pose proof (pow2_pos (e - 52) ltac:(lia)) as Hk.
    assert (Hn : n = n / 2 ^ (e - 52) * 2 ^ (e - 52)).
    { pose proof (Z.div_mod n (2 ^ (e - 52)) ltac:(lia)). lia. }
    change (2 ^ 53) with (2 * 2 ^ 52). split; [nia|]. intros _; exact Hn.
Qed.

Lemma double_of_integer_fields (s : bool) (n : Z) :
  representable n ->
  let r := double_of_integer s n in
  uint64 r /\ sign_field r = s /\ IsFinite r = true /\ integer_part r = n /\
  (magnitude r == inject_Z n)%Q.
Proof.
  intros Hrep r.
  pose proof (significand_range n Hrep) as Hsig. cbv zeta in Hsig.
  destruct Hsig as (He & Hsig & Hexact).
  destruct Hrep as [[Hpos _] _].
  set (e := Z.log2 n) in *.
  set (significand := if e <=? 52 then n * 2 ^ (52 - e) else n / 2 ^ (e - 52)) in *.
  assert (Hr : r = (if s then SignBit else 0) + (e + 1023) * 2 ^ 52 + (significand - 2 ^ 52)).
  { subst r; unfold double_of_integer; cbv zeta.
    destruct (Z.eqb_spec n 0); [lia|]. reflexivity. }
  destruct (fields_of_sum s (e + 1023) (significand - 2 ^ 52) ltac:(lia) ltac:(lia))
    as (Hu & Hsign & Hexp & Hmant).
  rewrite <- Hr in Hu, Hsign, Hexp, Hmant.
  split; [exact Hu|]. split; [exact Hsign|]. split; [|split].
  - rewrite IsFinite_spec, Hexp. apply Bool.negb_true_iff, Z.eqb_neq. lia.
  - unfold integer_part; cbv zeta. rewrite Hexp, Hmant.
    destruct (Z.eqb_spec (e + 1023) 0); [lia|].
    replace (2 ^ 52 + (significand - 2 ^ 52)) with significand by lia.
    destruct (Z.leb_spec 1075 (e + 1023)).
    + replace (e + 1023 - 1075) with (e - 52) by lia.
      destruct (Z.eq_dec e 52) as [He52|He52].
      * subst significand. rewrite He52.
        change (52 <=? 52) with true. change (2 ^ (52 - 52)) with 1.
        cbv iota. lia.
      * symmetry; apply Hexact; lia.
    + replace (1075 - (e + 1023)) with (52 - e) by lia.
      subst significand. destruct (Z.leb_spec e 52); [|lia].
      apply Z.div_mul. pose proof (pow2_pos (52 - e) ltac:(lia)); lia.
  - unfold magnitude. rewrite Hexp, Hmant.
    destruct (Z.eqb_spec (e + 1023) 0); [lia|].
    replace (2 ^ 52 + (significand - 2 ^ 52)) with significand by lia.
    replace (e + 1023 - 1075) with (e - 52) by lia.
    destruct (Z.le_gt_cases e 52) as [H52|H52].
    + subst significand. destruct (Z.leb_spec e 52); [|lia].
      replace (e - 52) with (- (52 - e)) by lia.
      rewrite Qpow2_neg by lia. rewrite inject_Z_mult, <- Qmult_assoc, Qmult_inv_r.
      * apply Qmult_1_r.
      * pose proof (pow2_pos (52 - e) ltac:(lia)) as Hp.
        apply Qnot_eq_sym, Qlt_not_eq.
        change 0%Q with (inject_Z 0). rewrite <- Zlt_Qlt. exact Hp.
    + rewrite Qpow2_nonneg by lia. rewrite <- inject_Z_mult.
      rewrite <- Hexact by lia. reflexivity.
Qed.

Lemma integer_part_representable (d : double) :
  1023 <= exponent_field d < 2047 -> representable (integer_part d).
Proof.
  intros HE. pose proof (mantissa_field_range d) as Hm.
  pose proof (integer_part_from_one d ltac:(lia)) as Hone.
  revert Hone. unfold representable, integer_part; cbv zeta.
  destruct (Z.eqb_spec (exponent_field d) 0); [lia|].
  set (M := 2 ^ 52 + mantissa_field d).
  assert (HM : 2 ^ 52 <= M < 2 ^ 53) by (subst M; change (2 ^ 53) with (2 * 2 ^ 52); lia).
  destruct (Z.leb_spec 1075 (exponent_field d)) as [Hhi|Hlo]; intros Hone.
  - set (k := exponent_field d - 1075) in *.
    assert (Hk : 0 <= k <= 971) by (subst k; lia).
    pose proof (pow2_pos k ltac:(lia)) as Hpk.
    assert (Hlog : Z.log2 (M * 2 ^ k) = 52 + k).
    { apply Z.log2_unique; [lia|]. unfold Z.succ.
      replace (52 + k + 1) with (53 + k) by lia.
      rewrite !Z.pow_add_r by lia. nia. }
    split; [split; [lia|]|].
    + apply Z.lt_le_trans with (2 ^ (53 + k)).
      * rewrite Z.pow_add_r by lia. nia.
      * apply pow2_le; lia.
    + right. rewrite Hlog. replace (52 + k - 52) with k by lia.
      apply Z.mod_mul; lia.
  - set (k := 1075 - exponent_field d) in *.
    pose proof (pow2_pos k ltac:(subst k; lia)) as Hpk.
    assert (Hle : M / 2 ^ k <= M).
    { apply Z.div_le_upper_bound; [lia|]. nia. }
    split; [split; [lia|]|].
    + apply Z.le_lt_trans with M; [exact Hle|].
      apply Z.lt_trans with (2 ^ 53); [lia|]. apply pow2_lt; lia.
    + left. assert (Z.log2 (M / 2 ^ k) < 53); [|lia].
      apply Z.log2_lt_pow2; lia.
Qed.

(** ** Comparison with zero *)

Lemma value_positive_zero : (value positive_zero == 0)%Q.
Proof. vm_compute. reflexivity. Qed.

Lemma magnitude_sign (d : double) :
  if (exponent_field d =? 0) && (mantissa_field d =? 0)
  then (magnitude d == 0)%Q else (0 < magnitude d)%Q.
Proof.
  pose proof (mantissa_field_range d) as Hm.
  assert (Hpos : forall M k, 0 < M -> (0 < inject_Z M * 2 ^ k)%Q).
  { intros M k HM. apply Qmult_lt_0_compat; [|apply Qpow2_pos].
    change 0%Q with (inject_Z 0). rewrite <- Zlt_Qlt. exact HM. }
  unfold magnitude.
  destruct (Z.eqb_spec (exponent_field d) 0) as [HE|HE]; cbn [andb].
  - destruct (Z.eqb_spec (mantissa_field d) 0) as [H0|H0].
    + rewrite H0. apply Qmult_0_l.
    + apply Hpos; lia.
  - apply Hpos; lia.
Qed.

Lemma compare_with_zero (d : double) :
  IsNaN d = false ->
  compare_double d positive_zero =
  Some (if (exponent_field d =? 0) && (mantissa_field d =? 0) then Eq
        else if sign_field d then Lt else Gt).
Proof.
  intros Hnan. unfold compare_double. rewrite Hnan.
  change (IsNaN positive_zero) with false.
  change (IsInfinite positive_zero) with false. cbn [orb].
  destruct (IsInfinite d) eqn:Hinf.
  - rewrite IsInfinite_spec in Hinf. apply Bool.andb_true_iff in Hinf.
    destruct Hinf as [HE _]. apply Z.eqb_eq in HE. rewrite HE. reflexivity.
  - f_equal. rewrite value_positive_zero.
    pose proof (magnitude_sign d) as Hmag. unfold value.
    destruct ((exponent_field d =? 0) && (mantissa_field d =? 0)).
    + apply Qeq_alt. destruct (sign_field d); rewrite Hmag; reflexivity.
    + destruct (sign_field d).
      * apply Qlt_alt. apply (Qopp_lt_compat 0 (magnitude d) Hmag).
      * apply Qgt_alt. exact Hmag.
Qed.

Lemma finite_not_NaN (d : double) : IsFinite d = true -> IsNaN d = false.
Proof.
  rewrite IsFinite_spec, IsNaN_spec. intros H.
  apply Bool.negb_true_iff in H. rewrite H. reflexivity.
Qed.

Lemma NaN_unordered (d : double) : IsNaN d = true -> double_eq d positive_zero = false.
Proof. intros H. unfold double_eq, compare_double. rewrite H. reflexivity. Qed.

Lemma zero_patterns (d : double) :
  uint64 d -> exponent_field d = 0 -> mantissa_field d = 0 ->
  d = if sign_field d then negative_zero else positive_zero.
Proof.
  intros Hd HE Hm. pose proof (double_fields d Hd) as H.
  rewrite HE, Hm in H. rewrite H at 1.
  destruct (sign_field d); reflexivity.
Qed.

(** On a finite double [ToInteger] keeps the sign and the integer part of
    the magnitude. *)
Lemma ToInteger_finite (d : double) :
  uint64 d -> IsFinite d = true ->
  ToInteger d = double_of_integer (sign_field d) (integer_part d).
Proof.
  intros Hd Hfin.
  pose proof (integer_part_nonneg d) as Hnn.
  unfold ToInteger, double_eq, double_lt.
  rewrite (compare_with_zero d (finite_not_NaN d Hfin)), Hfin. cbn [negb].
  destruct (Z.eqb_spec (exponent_field d) 0) as [HE|HE]; cbn [andb].
  - destruct (Z.eqb_spec (mantissa_field d) 0) as [Hm|Hm].
    + rewrite integer_part_below_one by lia.
      rewrite (zero_patterns d Hd HE Hm) at 1.
      destruct (sign_field d); reflexivity.
    + destruct (sign_field d) eqn:Hs.
      * unfold ceil, value, Qceiling. rewrite Hfin, Hs, Qopp_involutive, Qfloor_magnitude.
        rewrite Z.abs_opp, Z.abs_eq by lia. reflexivity.
      * unfold floor, value. rewrite Hfin, Hs, Qfloor_magnitude, Z.abs_eq by lia.
        reflexivity.
  - destruct (sign_field d) eqn:Hs.
    + unfold ceil, value, Qceiling. rewrite Hfin, Hs, Qopp_involutive, Qfloor_magnitude.
      rewrite Z.abs_opp, Z.abs_eq by lia. reflexivity.
    + unfold floor, value. rewrite Hfin, Hs, Qfloor_magnitude, Z.abs_eq by lia.
      reflexivity.
Qed.

(** ** The literals *)

(** The patterns above are the doubles of the literals they stand for:
    exactly, or within half a unit in the last place for 2.1 and -2.7,
    which are not doubles. *)
Lemma literal_values :
  (value minus_one == -1 /\ value plus_two == 2 /\ value minus_two == -2 /\
   value two_pow_31 == 2147483648 /\ value two_pow_32 == 4294967296 /\
   value two_pow_32_minus_half == 8589934591 # 2 /\
   value two_pow_32_plus_one == 4294967297 /\
   Qabs (value plus_2_1 - (21 # 10)) <= 2 ^ (-52) /\
   Qabs (value minus_2_7 - (-27 # 10)) <= 2 ^ (-52))%Q.
Proof. vm_compute. repeat split; discriminate. Qed.

(** ** ToInteger on the special values *)

(** C5: [ToInteger] returns a zero as it is, sign included; it returns
    [+0] on a NaN; and it returns an infinity as it is. *)
Theorem ToInteger_special_values (d : double) :
  uint64 d ->
  (double_eq d positive_zero = true -> ToInteger d = d) /\
  (double_eq d positive_zero = true <-> d = positive_zero \/ d = negative_zero) /\
  (IsNaN d = true -> ToInteger d = positive_zero) /\
  (IsInfinite d = true -> ToInteger d = d).
Proof.
  intros Hd. split; [|split; [|split]].
  - intros H. unfold ToInteger. rewrite H. reflexivity.
  - split.
    + intros H. destruct (IsNaN d) eqn:Hnan.
      * rewrite (NaN_unordered d Hnan) in H. discriminate.
      * unfold double_eq in H. rewrite (compare_with_zero d Hnan) in H.
        destruct (Z.eqb_spec (exponent_field d) 0) as [HE|HE]; cbn [andb] in H.
        -- destruct (Z.eqb_spec (mantissa_field d) 0) as [Hm|Hm].
           ++ rewrite (zero_patterns d Hd HE Hm). destruct (sign_field d); auto.
           ++ destruct (sign_field d); discriminate.
        -- destruct (sign_field d); discriminate.
    + intros [->| ->]; vm_compute; reflexivity.
  - intros Hnan. unfold ToInteger.
    rewrite (NaN_unordered d Hnan), Hnan.
    assert (Hfin : IsFinite d = false).
    { rewrite IsNaN_spec in Hnan. apply Bool.andb_true_iff in Hnan.
      rewrite IsFinite_spec. destruct Hnan as [-> _]. reflexivity. }
    rewrite Hfin. reflexivity.
  - intros Hinf.
    rewrite IsInfinite_spec in Hinf. apply Bool.andb_true_iff in Hinf.
    destruct Hinf as [HE Hm].
    assert (Hfin : IsFinite d = false) by (rewrite IsFinite_spec, HE; reflexivity).
    assert (Hnan : IsNaN d = false) by (rewrite IsNaN_spec, HE, Hm; reflexivity).
    unfold ToInteger, double_eq. rewrite (compare_with_zero d Hnan), Hfin, Hnan.
    apply Z.eqb_eq in HE. rewrite HE. cbn [Z.eqb andb negb].
    destruct (sign_field d); reflexivity.
Qed.

Lemma ToInteger_special_values_witness :
  uint64 negative_zero /\ double_eq negative_zero positive_zero = true /\
  ToInteger negative_zero = negative_zero.
Proof.
  assert (Hd : uint64 negative_zero) by (unfold uint64, negative_zero, SignBit; lia).
  assert (Hz : double_eq negative_zero positive_zero = true) by (vm_compute; reflexivity).
  split; [exact Hd|]. split; [exact Hz|].
  exact (proj1 (ToInteger_special_values negative_zero Hd) Hz).
Defined.

(** ** ToInteger on the finite doubles *)

Lemma finite_exponent (d : double) : IsFinite d = true -> exponent_field d < 2047.
Proof.
  rewrite IsFinite_spec. intros H. apply Bool.negb_true_iff, Z.eqb_neq in H.
  pose proof (exponent_field_range d). lia.
Qed.

(** C4 as the code has it: on a finite double other than zero [ToInteger]
    is [ceil] below zero and [floor] above it, and the value of the result
    is [sign(d) * floor(abs(d))], the truncation toward zero. *)
Theorem ToInteger_ceil_below_floor_above (d : double) :
  uint64 d -> IsFinite d = true -> double_eq d positive_zero = false ->
  ToInteger d = (if double_lt d positive_zero then ceil d else floor d) /\
  (value (ToInteger d) == inject_Z (d2 d))%Q.
Proof.
  intros Hd Hfin Hnz. split.
  - unfold ToInteger. rewrite Hnz, Hfin. reflexivity.
  - rewrite (ToInteger_finite d Hd Hfin), d2_integer_part.
    destruct (Z.lt_ge_cases (exponent_field d) 1023) as [Hlt|Hge].
    + rewrite (integer_part_below_one d Hlt), Z.mul_0_r.
      destruct (sign_field d); vm_compute; reflexivity.
    + pose proof (finite_exponent d Hfin) as Hmax.
      pose proof (integer_part_representable d ltac:(lia)) as Hrep.
      destruct (double_of_integer_fields (sign_field d) _ Hrep) as (_ & Hs & _ & _ & Hmag).
      unfold value at 1. rewrite Hs.
      destruct (sign_field d); rewrite Hmag.
      * rewrite <- inject_Z_opp. apply inject_Z_injective. lia.
      * apply inject_Z_injective. lia.
Qed.

Lemma ToInteger_ceil_below_floor_above_witness :
  uint64 minus_2_7 /\ ToInteger minus_2_7 = ceil minus_2_7 /\ ceil minus_2_7 = minus_two.
Proof.
  assert (Hd : uint64 minus_2_7) by (unfold uint64, minus_2_7; lia).
  assert (Hfin : IsFinite minus_2_7 = true) by (vm_compute; reflexivity).
  assert (Hnz : double_eq minus_2_7 positive_zero = false) by (vm_compute; reflexivity).
  assert (Hlt : double_lt minus_2_7 positive_zero = true) by (vm_compute; reflexivity).
  split; [exact Hd|]. split.
  - pose proof (proj1 (ToInteger_ceil_below_floor_above minus_2_7 Hd Hfin Hnz)) as H.
    rewrite Hlt in H. exact H.
  - vm_compute. reflexivity.
Defined.

(** C4 as the claim words it fails: 2.1 is finite, not zero and not below
    zero, and [ToInteger] returns 2.0 on it where [ceil] returns 3.0. *)
Lemma ToInteger_floor_below_ceil_above_fails :
  uint64 plus_2_1 /\
  IsFinite plus_2_1 = true /\
  double_eq plus_2_1 positive_zero = false /\
  double_lt plus_2_1 positive_zero = false /\
  ToInteger plus_2_1 = plus_two /\
  ceil plus_2_1 = 0x4008000000000000 /\
  ToInteger plus_2_1 <>
    (if double_lt plus_2_1 positive_zero then floor plus_2_1 else ceil plus_2_1).
Proof.
  split; [unfold uint64, plus_2_1; lia|].
  vm_compute. repeat split; discriminate.
Qed.

(** C8: on every finite double, applying [ToInteger] twice gives what
    applying it once gives. *)
Theorem ToInteger_idempotent (d : double) :
  uint64 d -> IsFinite d = true ->
  ToInteger (ToInteger d) = ToInteger d.
Proof.
  intros Hd Hfin. rewrite (ToInteger_finite d Hd Hfin).
  destruct (Z.lt_ge_cases (exponent_field d) 1023) as [Hlt|Hge].
  - rewrite (integer_part_below_one d Hlt).
    destruct (sign_field d); vm_compute; reflexivity.
  - pose proof (finite_exponent d Hfin) as Hmax.
    pose proof (integer_part_representable d ltac:(lia)) as Hrep.
    destruct (double_of_integer_fields (sign_field d) _ Hrep) as (Hu & Hs & Hf & Hip & _).
    rewrite (ToInteger_finite _ Hu Hf), Hs, Hip. reflexivity.
Qed.

Lemma ToInteger_idempotent_witness :
  uint64 minus_2_7 /\ IsFinite minus_2_7 = true /\
  ToInteger minus_2_7 = minus_two /\ ToInteger (ToInteger minus_2_7) = minus_two.
Proof.
  assert (Hd : uint64 minus_2_7) by (unfold uint64, minus_2_7; lia).
  assert (Hfin : IsFinite minus_2_7 = true) by (vm_compute; reflexivity).
  assert (H1 : ToInteger minus_2_7 = minus_two) by (vm_compute; reflexivity).
  split; [exact Hd|]. split; [exact Hfin|]. split; [exact H1|].
  rewrite (ToInteger_idempotent minus_2_7 Hd Hfin). exact H1.
Defined.

(** C10: on every double strictly between -1 and 0 [ToInteger] returns the
    negative zero. *)
Theorem ToInteger_negative_zero (d : double) :
  uint64 d ->
  double_lt minus_one d = true -> double_lt d positive_zero = true ->
  ToInteger d = negative_zero /\ sign_field (ToInteger d) = true /\
  ToInteger d = ceil d.
Proof.
  intros Hd Hlo Hhi.
  assert (Hnz : double_eq d positive_zero = false).
  { unfold double_lt in Hhi. unfold double_eq.
    destruct (compare_double d positive_zero) as [[ | | ]|]; (reflexivity || discriminate). }
  pose proof Hhi as Hbranch.
  assert (Hnan : IsNaN d = false).
  { destruct (IsNaN d) eqn:Hn; [|reflexivity].
    unfold double_lt, compare_double in Hhi. rewrite Hn in Hhi. discriminate. }
  unfold double_lt in Hhi. rewrite (compare_with_zero d Hnan) in Hhi.
  assert (Hs : sign_field d = true).
  { destruct ((exponent_field d =? 0) && (mantissa_field d =? 0)); [discriminate|].
    destruct (sign_field d); [reflexivity|discriminate]. }
  unfold double_lt, compare_double in Hlo. rewrite Hnan, Hs in Hlo.
  change (IsNaN minus_one) with false in Hlo.
  change (IsInfinite minus_one) with false in Hlo. cbn [orb] in Hlo.
  destruct (IsInfinite d) eqn:Hinf; [discriminate|].
  assert (Hfin : IsFinite d = true).
  { rewrite IsFinite_spec. rewrite IsNaN_spec in Hnan. rewrite IsInfinite_spec in Hinf.
    destruct (exponent_field d =? 2047); [|reflexivity].
    destruct (mantissa_field d =? 0); discriminate. }
  assert (Hlt : (value minus_one < value d)%Q).
  { apply Qlt_alt. destruct (value minus_one ?= value d)%Q; [discriminate|reflexivity|discriminate]. }
  assert (Hmag : (magnitude d < 1)%Q).
  { unfold value in Hlt at 2. rewrite Hs in Hlt.
    apply Qopp_lt_compat in Hlt. rewrite Qopp_involutive in Hlt.
    apply Qlt_le_trans with (1 := Hlt). vm_compute. discriminate. }
  apply magnitude_below_one in Hmag.
  pose proof (integer_part_nonneg d) as Hnn.
  assert (Hceil : ToInteger d = ceil d).
  { unfold ToInteger. rewrite Hnz, Hfin, Hbranch. reflexivity. }
  rewrite <- Hceil, (ToInteger_finite d Hd Hfin), Hs.
  replace (integer_part d) with 0 by lia.
  repeat split; reflexivity.
Qed.

Lemma ToInteger_negative_zero_witness :
  uint64 minus_half /\ (value minus_half == - (1 # 2))%Q /\
  ToInteger minus_half = negative_zero.
Proof.
  assert (Hd : uint64 minus_half) by (unfold uint64, minus_half; lia).
  assert (Hlo : double_lt minus_one minus_half = true) by (vm_compute; reflexivity).
  assert (Hhi : double_lt minus_half positive_zero = true) by (vm_compute; reflexivity).
  split; [exact Hd|]. split; [vm_compute; reflexivity|].
  exact (proj1 (ToInteger_negative_zero _ Hd Hlo Hhi)).
Defined.

(** ** The examples *)

(** C7: the boundary and example values of the specification. *)
Theorem boundary_examples :
  ToInt32 two_pow_31 = -2147483648 /\
  ToUint32 two_pow_32 = 0 /\
  ToUint32 two_pow_32_minus_half = 4294967295 /\
  ToInt32 two_pow_32_plus_one = 1 /\
  ToUint32 minus_one = 4294967295 /\
  ToInteger minus_2_7 = minus_two /\
  ToInteger plus_2_1 = plus_two.
Proof. vm_compute. repeat split. Qed.

(** * Further properties of the conversions *)

(** ** Helpers shared by the properties below *)

Lemma ToIntWidth_mod (T : SignedType) (d : double) :
  ToIntWidth T d mod 2 ^ (CHAR_BIT * sizeof_signed T) = ToUintWidth (MakeUnsigned T) d.
Proof.
  set (W := CHAR_BIT * sizeof_signed T). set (u := ToUintWidth (MakeUnsigned T) d).
  pose proof (ToUintWidth_range (MakeUnsigned T) d) as Hu. fold u in Hu.
  rewrite <- SignedWidth_unsigned in Hu. fold W in Hu.
  assert (HW : 0 < W) by (destruct T; reflexivity).
  pose proof (ToIntWidth_eq T d) as Heq. cbv zeta in Heq. fold W u in Heq.
  rewrite Heq.
  destruct (Z.leb_spec u (2 ^ (W - 1) - 1)).
  - apply Z.mod_small; lia.
  - replace (u - 2 ^ W) with (u + (-1) * 2 ^ W) by lia.
    rewrite Z.mod_add by lia. apply Z.mod_small; lia.
Qed.

Lemma ToIntWidth_wrap (T : SignedType) (d : double) :
  ToIntWidth T d = wrap_signed (CHAR_BIT * sizeof_signed T) (ToUintWidth (MakeUnsigned T) d).
Proof.
  set (W := CHAR_BIT * sizeof_signed T). set (u := ToUintWidth (MakeUnsigned T) d).
  pose proof (ToUintWidth_range (MakeUnsigned T) d) as Hu. fold u in Hu.
  rewrite <- SignedWidth_unsigned in Hu. fold W in Hu.
  assert (HW : 0 < W) by (destruct T; reflexivity).
  assert (H2 : 2 ^ W = 2 * 2 ^ (W - 1)).
  { replace W with (1 + (W - 1)) at 1 by lia. rewrite Z.pow_add_r by lia. reflexivity. }
  pose proof (ToIntWidth_eq T d) as Heq. cbv zeta in Heq. fold W u in Heq.
  rewrite Heq.
  destruct (Z.leb_spec u (2 ^ (W - 1) - 1)).
  - rewrite wrap_signed_small; lia.
  - rewrite wrap_signed_high; lia.
Qed.

Lemma wrap_signed_mod (w x : Z) : wrap_signed w (x mod 2 ^ w) = wrap_signed w x.
Proof.
  unfold wrap_signed. f_equal. apply Zplus_mod_idemp_l.
Qed.

(** The result of [ToUintWidth] is the residue of the signed integer part,
    on every pattern (the integer part of a non-finite pattern is a
    multiple of [2^64]). *)
Lemma ToUintWidth_integer_part (T : UnsignedType) (d : double) :
  uint64 d ->
  ToUintWidth T d = ((if sign_field d then -1 else 1) * integer_part d) mod 2 ^ ResultWidth T.
Proof.
  intros Hd. destruct (IsFinite d) eqn:Hfin.
  - rewrite (ToUintWidth_congruent T d Hd Hfin), d2_integer_part. reflexivity.
  - rewrite (ToUintWidth_nonfinite T d Hfin).
    rewrite IsFinite_spec in Hfin. apply Bool.negb_false_iff, Z.eqb_eq in Hfin.
    unfold integer_part; cbv zeta. rewrite Hfin.
    change (2047 =? 0) with false. change (1075 <=? 2047) with true. cbv iota.
    assert (HW : ResultWidth T = 32 \/ ResultWidth T = 64) by apply ResultWidth_cases.
    set (M := 2 ^ 52 + mantissa_field d).
    replace ((if sign_field d then -1 else 1) * (M * 2 ^ (2047 - 1075)))
      with ((if sign_field d then -1 else 1) * M * 2 ^ (972 - ResultWidth T)
            * 2 ^ ResultWidth T).
    + symmetry. apply Z.mod_mul. pose proof (pow2_pos (ResultWidth T)); lia.
    + rewrite <- !Z.mul_assoc, <- Z.pow_add_r by lia.
      do 3 f_equal. lia.
Qed.

(** ** Negation *)

Lemma negate_fields (d : double) :
  uint64 d ->
  uint64 (negate d) /\ sign_field (negate d) = negb (sign_field d) /\
  exponent_field (negate d) = exponent_field d /\
  mantissa_field (negate d) = mantissa_field d.
Proof.
  intros Hd.
  pose proof (double_fields d Hd) as Hf.
  pose proof (exponent_field_range d) as HE.
  pose proof (mantissa_field_range d) as Hm.
  assert (Hlow : forall x, uint64 x -> sign_field x = false -> Z.lxor x SignBit = x + SignBit).
  { intros x Hx Hs. symmetry. apply Z.add_nocarry_lxor.
    apply Z.eqb_eq. rewrite land_SignBit, Hs. reflexivity. }
  assert (Hneg : negate d = (if negb (sign_field d) then SignBit else 0)
                            + exponent_field d * 2 ^ 52 + mantissa_field d).
  { unfold negate. destruct (sign_field d) eqn:Hs; cbn [negb].
    - set (x := exponent_field d * 2 ^ 52 + mantissa_field d).
      assert (Hx : uint64 x) by (unfold uint64; subst x; lia).
      assert (Hsx : sign_field x = false).
      { rewrite (sign_field_spec x Hx). apply Z.leb_gt. subst x; lia. }
      assert (Hdx : x + SignBit = d) by (unfold SignBit; subst x; lia).
      rewrite <- Hdx at 1.
      rewrite <- (Hlow x Hx Hsx), Z.lxor_assoc, Z.lxor_nilpotent, Z.lxor_0_r.
      subst x; lia.
    - rewrite (Hlow d Hd Hs). unfold SignBit in *. lia. }
  rewrite Hneg.
  apply (fields_of_sum (negb (sign_field d)) (exponent_field d) (mantissa_field d) HE Hm).
Qed.

(** X1: the conversion of the negated double is the two's-complement
    negation of the conversion of the double, for every pattern and both
    widths. *)
Theorem ToUintWidth_negate (T : UnsignedType) (d : double) :
  uint64 d ->
  ToUintWidth T (negate d) = (- ToUintWidth T d) mod 2 ^ ResultWidth T.
Proof.
  intros Hd.
  destruct (negate_fields d Hd) as (Hn & Hs & HE & Hm).
  rewrite (ToUintWidth_integer_part T _ Hn), (ToUintWidth_integer_part T d Hd).
  assert (Hip : integer_part (negate d) = integer_part d).
  { unfold integer_part. rewrite HE, Hm. reflexivity. }
  rewrite Hs, Hip.
  set (n := integer_part d). set (W := ResultWidth T).
  replace (- (((if sign_field d then -1 else 1) * n) mod 2 ^ W))
    with (0 - ((if sign_field d then -1 else 1) * n) mod 2 ^ W) by lia.
  rewrite Zminus_mod_idemp_r. f_equal.
  destruct (sign_field d); cbn [negb]; lia.
Qed.

Lemma ToUintWidth_negate_witness :
  uint64 two_pow_32_plus_one /\
  ToUintWidth uint32_t two_pow_32_plus_one = 1 /\
  ToUintWidth uint32_t (negate two_pow_32_plus_one) = 4294967295.
Proof.
  assert (Hd : uint64 two_pow_32_plus_one) by (unfold uint64, two_pow_32_plus_one; lia).
  assert (H1 : ToUintWidth uint32_t two_pow_32_plus_one = 1) by (vm_compute; reflexivity).
  split; [exact Hd|]. split; [exact H1|].
  rewrite (ToUintWidth_negate uint32_t _ Hd), H1. reflexivity.
Defined.

(** ** Narrowing *)

(** X2: the 32-bit results are the 64-bit results cut to 32 bits: the low
    32 bits for the unsigned pair, the wrapped value for the signed pair. *)
Theorem narrowing (d : double) :
  uint64 d ->
  ToUint32 d = ToUint64 d mod 2 ^ 32 /\
  ToInt32 d = wrap_signed 32 (ToInt64 d).
Proof.
  intros Hd.
  assert (Hu : ToUint32 d = ToUint64 d mod 2 ^ 32).
  { unfold ToUint32, ToUint64.
    rewrite !(ToUintWidth_integer_part _ d Hd).
    change (ResultWidth uint32_t) with 32. change (ResultWidth uint64_t) with 64.
    rewrite mod_pow2_mod_pow2 by lia. reflexivity. }
  split; [exact Hu|].
  unfold ToInt32, ToInt64. rewrite (ToIntWidth_wrap int32_t d).
  change (CHAR_BIT * sizeof_signed int32_t) with 32.
  change (ToUintWidth (MakeUnsigned int32_t) d) with (ToUint32 d).
  rewrite Hu. rewrite wrap_signed_mod.
  pose proof (ToIntWidth_mod int64_t d) as H64.
  change (CHAR_BIT * sizeof_signed int64_t) with 64 in H64.
  change (ToUintWidth (MakeUnsigned int64_t) d) with (ToUint64 d) in H64.
  rewrite <- H64.
  rewrite <- (wrap_signed_mod 32 (ToIntWidth int64_t d mod 2 ^ 64)).
  rewrite mod_pow2_mod_pow2 by lia. apply wrap_signed_mod.
Qed.

Lemma narrowing_witness :
  uint64 0xC3E0000000000001 /\
  ToInt64 0xC3E0000000000001 = - 2 ^ 63 - 2048 + 2 ^ 64 /\
  ToInt32 0xC3E0000000000001 = -2048.
Proof.
  assert (Hd : uint64 0xC3E0000000000001) by (unfold uint64; lia).
  assert (H64 : ToInt64 0xC3E0000000000001 = - 2 ^ 63 - 2048 + 2 ^ 64)
    by (vm_compute; reflexivity).
  split; [exact Hd|]. split; [exact H64|].
  rewrite (proj2 (narrowing _ Hd)), H64. vm_compute. reflexivity.
Defined.

(** ** Doubles that hold integers *)

Lemma d2_of_integer (d : double) (z : Z) :
  (value d == inject_Z z)%Q -> d2 d = z.
Proof.
  intros Hv. unfold d2. rewrite Hv.
  change (Qabs (inject_Z z)) with (inject_Z (Z.abs z)). rewrite Qfloor_Z.
  pose proof (magnitude_nonneg d) as Hm.
  unfold value in Hv. destruct (sign_field d).
  - assert (Hz : (inject_Z z <= inject_Z 0)%Q).
    { rewrite <- Hv. apply (Qopp_le_compat 0 (magnitude d) Hm). }
    rewrite <- Zle_Qle in Hz. lia.
  - assert (Hz : (inject_Z 0 <= inject_Z z)%Q) by (rewrite <- Hv; exact Hm).
    rewrite <- Zle_Qle in Hz. lia.
Qed.

(** X3: a finite double whose value is an integer of the result type is
    converted to that integer, by the unsigned and by the signed
    conversions of both widths. *)
Theorem exact_on_integers (d : double) (z : Z) :
  uint64 d -> IsFinite d = true -> (value d == inject_Z z)%Q ->
  (forall T : UnsignedType, 0 <= z < 2 ^ ResultWidth T -> ToUintWidth T d = z) /\
  (forall T : SignedType,
      - 2 ^ (CHAR_BIT * sizeof_signed T - 1) <= z <= 2 ^ (CHAR_BIT * sizeof_signed T - 1) - 1 ->
      ToIntWidth T d = z).
Proof.
  intros Hd Hfin Hv. pose proof (d2_of_integer d z Hv) as H2. split.
  - intros T Hz. rewrite (ToUintWidth_congruent T d Hd Hfin), H2.
    apply Z.mod_small; exact Hz.
  - intros T Hz. rewrite <- H2 in Hz |- *.
    apply (ToIntWidth_in_range T d Hd Hfin). exact Hz.
Qed.

Lemma exact_on_integers_witness :
  uint64 minus_two /\ (value minus_two == inject_Z (-2))%Q /\ ToInt32 minus_two = -2.
Proof.
  assert (Hd : uint64 minus_two) by (unfold uint64, minus_two; lia).
  assert (Hfin : IsFinite minus_two = true) by (vm_compute; reflexivity).
  assert (Hv : (value minus_two == inject_Z (-2))%Q) by (vm_compute; reflexivity).
  split; [exact Hd|]. split; [exact Hv|].
  apply (proj2 (exact_on_integers minus_two (-2) Hd Hfin Hv) int32_t).
  vm_compute. split; discriminate.
Defined.

(** ** The decoded exponent *)

(** X4: the decoded exponent lies in [[-1023, 1024]], so that it fits the
    16-bit types it is held in; it is -1023 exactly on the zeros and the
    subnormals and 1024 exactly on the infinities and the NaNs. *)
Theorem decoded_exponent_range (d : double) :
  let exp := fst (decoded_exponent d) in
  -1023 <= exp <= 1024 /\
  (exp = -1023 <-> exponent_field d = 0) /\
  (exp = 1024 <-> IsFinite d = false).
Proof.
  intros exp. assert (Hexp : exp = exponent_field d - 1023) by apply decoded_exponent_eq.
  pose proof (exponent_field_range d) as HE.
  split; [lia|]. split; [lia|].
  rewrite IsFinite_spec, Bool.negb_false_iff, Z.eqb_eq. lia.
Qed.

(** ** ToInteger and the conversions *)

Lemma ToInteger_NaN (d : double) : IsNaN d = true -> ToInteger d = positive_zero.
Proof.
  intros Hnan. unfold ToInteger. rewrite (NaN_unordered d Hnan), Hnan.
  rewrite IsNaN_spec in Hnan. apply Bool.andb_true_iff in Hnan.
  rewrite IsFinite_spec. destruct Hnan as [-> _]. reflexivity.
Qed.

Lemma ToInteger_infinite (d : double) : IsInfinite d = true -> ToInteger d = d.
Proof.
  intros Hinf.
  rewrite IsInfinite_spec in Hinf. apply Bool.andb_true_iff in Hinf.
  destruct Hinf as [HE Hm].
  assert (Hfin : IsFinite d = false) by (rewrite IsFinite_spec, HE; reflexivity).
  assert (Hnan : IsNaN d = false) by (rewrite IsNaN_spec, HE, Hm; reflexivity).
  unfold ToInteger, double_eq. rewrite (compare_with_zero d Hnan), Hfin, Hnan.
  apply Z.eqb_eq in HE. rewrite HE. cbn [Z.eqb andb negb].
  destruct (sign_field d); reflexivity.
Qed.

Lemma nonfinite_cases (d : double) :
  IsFinite d = false -> IsNaN d = true \/ IsInfinite d = true.
Proof.
  rewrite IsFinite_spec, IsNaN_spec, IsInfinite_spec. intros H.
  apply Bool.negb_false_iff in H. rewrite H.
  destruct (mantissa_field d =? 0); [right|left]; reflexivity.
Qed.

(** What [ToInteger] returns on a finite double: a finite double of the
    same sign and the same integer part, whose magnitude is that integer. *)
Lemma ToInteger_finite_fields (d : double) :
  uint64 d -> IsFinite d = true ->
  let r := ToInteger d in
  uint64 r /\ IsFinite r = true /\ sign_field r = sign_field d /\
  integer_part r = integer_part d /\
  (magnitude r == inject_Z (integer_part d))%Q.
Proof.
  intros Hd Hfin r. subst r. rewrite (ToInteger_finite d Hd Hfin).
  destruct (Z.lt_ge_cases (exponent_field d) 1023) as [Hlt|Hge].
  - rewrite (integer_part_below_one d Hlt).
    destruct (sign_field d); vm_compute; repeat split; discriminate.
  - pose proof (finite_exponent d Hfin) as Hmax.
    pose proof (integer_part_representable d ltac:(lia)) as Hrep.
    destruct (double_of_integer_fields (sign_field d) _ Hrep) as (Hu & Hs & Hf & Hip & Hmag).
    repeat split; assumption || apply Hu.
Qed.

(** X5: truncating first changes no conversion: [ToUintWidth] and
    [ToIntWidth] return on [ToInteger d] what they return on [d], for every
    pattern, NaNs and infinities included. *)
Theorem conversions_after_ToInteger (d : double) :
  uint64 d ->
  (forall T : UnsignedType, ToUintWidth T (ToInteger d) = ToUintWidth T d) /\
  (forall T : SignedType, ToIntWidth T (ToInteger d) = ToIntWidth T d).
Proof.
  intros Hd.
  assert (Hu : forall T : UnsignedType, ToUintWidth T (ToInteger d) = ToUintWidth T d).
  { intros T. destruct (IsFinite d) eqn:Hfin.
    - destruct (ToInteger_finite_fields d Hd Hfin) as (Hr & _ & Hs & Hip & _).
      rewrite (ToUintWidth_integer_part T _ Hr), (ToUintWidth_integer_part T d Hd).
      rewrite Hs, Hip. reflexivity.
    - destruct (nonfinite_cases d Hfin) as [Hnan|Hinf].
      + rewrite (ToInteger_NaN d Hnan), (ToUintWidth_nonfinite T d Hfin).
        destruct T; reflexivity.
      + rewrite (ToInteger_infinite d Hinf). reflexivity. }
  split; [exact Hu|].
  intros T. unfold ToIntWidth. rewrite Hu. reflexivity.
Qed.

Lemma conversions_after_ToInteger_witness :
  uint64 minus_2_7 /\ ToInteger minus_2_7 = minus_two /\
  ToInt32 minus_2_7 = -2 /\ ToInt32 minus_two = -2.
Proof.
  assert (Hd : uint64 minus_2_7) by (unfold uint64, minus_2_7; lia).
  assert (Ht : ToInteger minus_2_7 = minus_two) by (vm_compute; reflexivity).
  assert (H2 : ToInt32 minus_two = -2) by (vm_compute; reflexivity).
  split; [exact Hd|]. split; [exact Ht|]. split; [|exact H2].
  unfold ToInt32.
  rewrite <- (proj2 (conversions_after_ToInteger minus_2_7 Hd) int32_t), Ht. exact H2.
Defined.

(** ** ToInteger as a truncation *)

(** X6: [ToInteger] never returns a NaN; on every double that is not a NaN
    it keeps the sign bit and returns a finite double exactly when the
    double is finite. *)
Theorem ToInteger_never_NaN (d : double) :
  uint64 d ->
  IsNaN (ToInteger d) = false /\
  (IsNaN d = false ->
   sign_field (ToInteger d) = sign_field d /\ IsFinite (ToInteger d) = IsFinite d).
Proof.
  intros Hd. destruct (IsFinite d) eqn:Hfin.
  - destruct (ToInteger_finite_fields d Hd Hfin) as (_ & Hf & Hs & _).
    split; [apply finite_not_NaN, Hf|]. intros _. split; assumption.
  - destruct (nonfinite_cases d Hfin) as [Hnan|Hinf].
    + rewrite (ToInteger_NaN d Hnan). split; [reflexivity|].
      intros H; rewrite H in Hnan; discriminate.
    + rewrite (ToInteger_infinite d Hinf).
      assert (Hn : IsNaN d = false).
      { rewrite IsInfinite_spec in Hinf. rewrite IsNaN_spec.
        apply Bool.andb_true_iff in Hinf. destruct Hinf as [-> ->]. reflexivity. }
      split; [exact Hn|]. intros _. split; [reflexivity|exact Hfin].
Qed.

Lemma ToInteger_never_NaN_witness :
  uint64 quiet_NaN /\ IsNaN quiet_NaN = true /\ IsNaN (ToInteger quiet_NaN) = false.
Proof.
  assert (Hd : uint64 quiet_NaN) by (unfold uint64, quiet_NaN; lia).
  split; [exact Hd|]. split; [vm_compute; reflexivity|].
  exact (proj1 (ToInteger_never_NaN quiet_NaN Hd)).
Defined.

(** X7: on a finite double [ToInteger] moves toward zero by less than one:
    the magnitude of the result is at most that of the double and more
    than that of the double less one. *)
Theorem ToInteger_toward_zero (d : double) :
  uint64 d -> IsFinite d = true ->
  (Qabs (value (ToInteger d)) <= Qabs (value d) /\
   Qabs (value d) < Qabs (value (ToInteger d)) + 1)%Q.
Proof.
  intros Hd Hfin.
  destruct (ToInteger_finite_fields d Hd Hfin) as (_ & _ & _ & _ & Hmag).
  rewrite !Qabs_value, Hmag, <- Qfloor_magnitude. split.
  - apply Qfloor_le.
  - change 1%Q with (inject_Z 1). rewrite <- inject_Z_plus. apply Qlt_floor.
Qed.

Lemma ToInteger_toward_zero_witness :
  uint64 minus_2_7 /\
  (Qabs (value (ToInteger minus_2_7)) == 2)%Q /\
  (2 <= Qabs (value minus_2_7) /\ Qabs (value minus_2_7) < 3)%Q.
Proof.
  assert (Hd : uint64 minus_2_7) by (unfold uint64, minus_2_7; lia).
  assert (Hfin : IsFinite minus_2_7 = true) by (vm_compute; reflexivity).
  assert (H2 : (Qabs (value (ToInteger minus_2_7)) == 2)%Q) by (vm_compute; reflexivity).
  split; [exact Hd|]. split; [exact H2|].
  destruct (ToInteger_toward_zero minus_2_7 Hd Hfin) as [Hle Hlt].
  rewrite H2 in Hle, Hlt. split; [exact Hle|exact Hlt].
Defined.

(** A finite double whose magnitude is its integer part is the double of
    that integer. *)
Lemma integral_double_pattern (d : double) :
  uint64 d -> IsFinite d = true ->
  (magnitude d == inject_Z (integer_part d))%Q ->
  double_of_integer (sign_field d) (integer_part d) = d.
Proof.
  intros Hd Hfin Hex.
  pose proof (mantissa_field_range d) as Hm.
  pose proof (finite_exponent d Hfin) as Hmax.
  pose proof (exponent_field_range d) as HE.
  pose proof (double_fields d Hd) as Hf.
  destruct (Z.lt_ge_cases (exponent_field d) 1023) as [Hlt|Hge].
  - rewrite (integer_part_below_one d Hlt) in Hex |- *.
    pose proof (magnitude_sign d) as Hsgn.
    destruct (Z.eqb_spec (exponent_field d) 0) as [HE0|HE0]; cbn [andb] in Hsgn.
    + destruct (Z.eqb_spec (mantissa_field d) 0) as [Hm0|Hm0].
      * rewrite (zero_patterns d Hd HE0 Hm0) at 2.
        destruct (sign_field d); reflexivity.
      * rewrite Hex in Hsgn. discriminate.
    + rewrite Hex in Hsgn. discriminate.
  - set (M := 2 ^ 52 + mantissa_field d).
    assert (HM : 2 ^ 52 <= M < 2 ^ 53) by (subst M; change (2 ^ 53) with (2 * 2 ^ 52); lia).
    assert (Hshape : exists n e,
               integer_part d = n /\ 0 < n /\ Z.log2 n = e /\ e + 1023 = exponent_field d /\
               (if e <=? 52 then n * 2 ^ (52 - e) else n / 2 ^ (e - 52)) = M).
    { destruct (Z.leb_spec 1075 (exponent_field d)) as [Hhi|Hlo].
      - set (k := exponent_field d - 1075).
        pose proof (pow2_pos k ltac:(subst k; lia)) as Hpk.
        assert (Hip : integer_part d = M * 2 ^ k).
        { unfold integer_part; cbv zeta.
          destruct (Z.eqb_spec (exponent_field d) 0); [lia|].
          destruct (Z.leb_spec 1075 (exponent_field d)); [reflexivity|lia]. }
        exists (M * 2 ^ k), (52 + k).
        split; [exact Hip|]. split; [nia|]. split; [|split; [subst k; lia|]].
        + apply Z.log2_unique; [subst k; lia|]. unfold Z.succ.
          replace (52 + k + 1) with (53 + k) by lia.
          rewrite !Z.pow_add_r by (subst k; lia). nia.
        + destruct (Z.leb_spec (52 + k) 52).
          * assert (Hk0 : k = 0) by (subst k; lia). rewrite Hk0.
            change (2 ^ (52 - (52 + 0))) with 1. change (2 ^ 0) with 1. lia.
          * replace (52 + k - 52) with k by lia. apply Z.div_mul; lia.
      - set (k := 1075 - exponent_field d).
        pose proof (pow2_pos k ltac:(subst k; lia)) as Hpk.
        assert (Hip : integer_part d = M / 2 ^ k).
        { unfold integer_part; cbv zeta.
          destruct (Z.eqb_spec (exponent_field d) 0); [lia|].
          destruct (Z.leb_spec 1075 (exponent_field d)); [lia|reflexivity]. }
        assert (HMn : M = M / 2 ^ k * 2 ^ k).
        { rewrite Hip in Hex. unfold magnitude in Hex.
          destruct (Z.eqb_spec (exponent_field d) 0); [lia|].
          fold M in Hex.
          replace (exponent_field d - 1075) with (- k) in Hex by (subst k; lia).
          rewrite Qpow2_neg in Hex by (subst k; lia).
          apply inject_Z_injective.
          rewrite inject_Z_mult, <- Hex, <- Qmult_assoc, (Qmult_comm (/ _)), Qmult_inv_r.
          - symmetry. apply Qmult_1_r.
          - apply Qnot_eq_sym, Qlt_not_eq.
            change 0%Q with (inject_Z 0). rewrite <- Zlt_Qlt. exact Hpk. }
        set (n := M / 2 ^ k) in *.
        pose proof (pow2_split k 52 ltac:(subst k; lia)) as Hsp.
        pose proof (pow2_pos (52 - k) ltac:(subst k; lia)) as Hpe.
        assert (Hk : 1 <= k <= 52) by (subst k; lia).
        exists n, (52 - k).
        split; [exact Hip|]. split; [nia|]. split; [|split; [subst k; lia|]].
        + apply Z.log2_unique; [lia|]. unfold Z.succ.
          replace (52 - k + 1) with (53 - k) by lia.
          assert (Hs53 : 2 ^ 53 = 2 ^ (53 - k) * 2 ^ k).
          { rewrite <- Z.pow_add_r by lia. f_equal. lia. }
          rewrite Z.mul_comm in Hsp. split; nia.
        + destruct (Z.leb_spec (52 - k) 52); [|lia].
          replace (52 - (52 - k)) with k by lia. lia. }
    destruct Hshape as (n & e & Hip & Hn & Hlog & He & Hsig).
    rewrite Hip. unfold double_of_integer; cbv zeta.
    destruct (Z.eqb_spec n 0); [lia|].
    rewrite Hlog, Hsig. unfold ExponentBias, SignBit. rewrite He.
    subst M. destruct (sign_field d); lia.
Qed.

(** X8: the finite doubles that [ToInteger] returns as they are, bit for
    bit, are exactly those whose value is an integer. *)
Theorem ToInteger_fixed_points (d : double) :
  uint64 d -> IsFinite d = true ->
  (ToInteger d = d <-> exists z : Z, (value d == inject_Z z)%Q).
Proof.
  intros Hd Hfin. split.
  - intros Hfix.
    destruct (ToInteger_finite_fields d Hd Hfin) as (_ & _ & _ & _ & Hmag).
    rewrite Hfix in Hmag. unfold value.
    destruct (sign_field d).
    + exists (- integer_part d). rewrite Hmag, inject_Z_opp. reflexivity.
    + exists (integer_part d). exact Hmag.
  - intros [z Hz].
    assert (Hmag : (magnitude d == inject_Z (Z.abs z))%Q).
    { rewrite <- (Qabs_value d), Hz. reflexivity. }
    assert (Hip : integer_part d = Z.abs z).
    { rewrite <- Qfloor_magnitude, Hmag. apply Qfloor_Z. }
    rewrite (ToInteger_finite d Hd Hfin).
    apply (integral_double_pattern d Hd Hfin). rewrite Hip. exact Hmag.
Qed.

Lemma ToInteger_fixed_points_witness :
  uint64 two_pow_32_plus_one /\ ToInteger two_pow_32_plus_one = two_pow_32_plus_one.
Proof.
  assert (Hd : uint64 two_pow_32_plus_one) by (unfold uint64, two_pow_32_plus_one; lia).
  assert (Hfin : IsFinite two_pow_32_plus_one = true) by (vm_compute; reflexivity).
  split; [exact Hd|].
  apply (proj2 (ToInteger_fixed_points _ Hd Hfin)).
  exists 4294967297. vm_compute. reflexivity.
Defined.

(** ** The signed arithmetic of ToIntWidth *)

Lemma checked_signed_in (w x : Z) :
  - 2 ^ (w - 1) <= x <= 2 ^ (w - 1) - 1 -> checked_signed w x = Some x.
Proof.
  intros H. unfold checked_signed.
  destruct (Z.leb_spec (- 2 ^ (w - 1)) x); [|lia].
  destruct (Z.leb_spec x (2 ^ (w - 1) - 1)); [reflexivity|lia].
Qed.

Lemma checked_signed_above (w x : Z) :
  2 ^ (w - 1) - 1 < x -> checked_signed w x = None.
Proof.
  intros H. unfold checked_signed.
  destruct (Z.leb_spec x (2 ^ (w - 1) - 1)); [lia|].
  rewrite Bool.andb_false_r. reflexivity.
Qed.

(** X9: the last line of [ToIntWidth] keeps every signed value within the
    type, and then returns what the wrapping model returns, for every
    unsigned result but the largest one, [2^W - 1]; there [u - MaxValue] is
    [2^(W-1)], one more than the signed type holds.  Among the finite
    doubles these are the ones whose truncation is [-1] modulo [2^W]. *)
Theorem ToIntWidth_checked_spec (T : SignedType) (d : double) :
  uint64 d ->
  let W := CHAR_BIT * sizeof_signed T in
  let u := ToUintWidth (MakeUnsigned T) d in
  ToIntWidth_checked T d = (if u =? 2 ^ W - 1 then None else Some (ToIntWidth T d)) /\
  (IsFinite d = true -> (ToIntWidth_checked T d = None <-> d2 d mod 2 ^ W = 2 ^ W - 1)) /\
  (IsFinite d = false -> ToIntWidth_checked T d = Some 0).
Proof.
  intros Hd W u.
  pose proof (ToUintWidth_range (MakeUnsigned T) d) as Hu. fold u in Hu.
  rewrite <- SignedWidth_unsigned in Hu. fold W in Hu.
  assert (HW : 0 < W) by (destruct T; reflexivity).
  assert (Hmax : wrap_signed W (wrap_unsigned 64 (wrap_unsigned 64 (Z.shiftl 1 (W - 1)) - 1))
                 = 2 ^ (W - 1) - 1).
  { destruct T; reflexivity. }
  assert (H2 : 2 ^ W = 2 * 2 ^ (W - 1)).
  { replace W with (1 + (W - 1)) at 1 by lia. rewrite Z.pow_add_r by lia. reflexivity. }
  pose proof (pow2_pos (W - 1) ltac:(lia)) as Hp.
  pose proof (ToIntWidth_eq T d) as Heq. cbv zeta in Heq. fold W u in Heq.
  assert (Hmain : ToIntWidth_checked T d
                  = if u =? 2 ^ W - 1 then None else Some (ToIntWidth T d)).
  { rewrite Heq. unfold ToIntWidth_checked; cbv zeta. fold W u. rewrite Hmax.
    rewrite (wrap_signed_small W (- (2 ^ (W - 1) - 1))) by lia.
    rewrite (wrap_signed_small W (- (2 ^ (W - 1) - 1) - 1)) by lia.
    unfold wrap_unsigned at 1. rewrite (Z.mod_small (2 ^ (W - 1) - 1)) by lia.
    destruct (Z.leb_spec u (2 ^ (W - 1) - 1)) as [Hle|Hgt].
    - destruct (Z.eqb_spec u (2 ^ W - 1)); [lia|]. apply checked_signed_in; lia.
    - unfold wrap_unsigned. rewrite (Z.mod_small (u - (2 ^ (W - 1) - 1))) by lia.
      destruct (Z.eqb_spec u (2 ^ W - 1)) as [Hu1|Hu1].
      + rewrite checked_signed_above by lia. reflexivity.
      + rewrite (checked_signed_in W (u - (2 ^ (W - 1) - 1))) by lia.
        rewrite checked_signed_in by lia.
        rewrite checked_signed_in by lia. f_equal. lia. }
  split; [exact Hmain|]. split.
  - intros Hfin. rewrite Hmain.
    pose proof (ToUintWidth_congruent (MakeUnsigned T) d Hd Hfin) as Hc.
    rewrite <- SignedWidth_unsigned in Hc. fold u W in Hc. rewrite <- Hc.
    destruct (Z.eqb_spec u (2 ^ W - 1)); split; intros H;
      first [reflexivity | assumption | discriminate | contradiction].
  - intros Hfin. rewrite Hmain, Heq.
    pose proof (ToUintWidth_nonfinite (MakeUnsigned T) d Hfin) as H0. fold u in H0.
    rewrite H0.
    destruct (Z.eqb_spec 0 (2 ^ W - 1)); [lia|].
    destruct (Z.leb_spec 0 (2 ^ (W - 1) - 1)); [reflexivity|lia].
Qed.

Lemma ToIntWidth_checked_spec_witness :
  uint64 minus_one /\ d2 minus_one = -1 /\
  ToIntWidth_checked int32_t minus_one = None /\ ToInt32 minus_one = -1.
Proof.
  assert (Hd : uint64 minus_one) by (unfold uint64, minus_one; lia).
  assert (Hfin : IsFinite minus_one = true) by (vm_compute; reflexivity).
  assert (H2 : d2 minus_one = -1) by (vm_compute; reflexivity).
  split; [exact Hd|]. split; [exact H2|]. split; [|vm_compute; reflexivity].
  apply (proj2 (proj1 (proj2 (ToIntWidth_checked_spec int32_t minus_one Hd)) Hfin)).
  rewrite H2. vm_compute. reflexivity.
Defined.

(** ** The ARM path of ToInt32 *)

Lemma ToInt32_arm_code_closed (before : cpu) (hi lo : Z) :
  reg_i (ToInt32_arm_code (set_reg (set_reg before r_dQ lo) r_dR hi)) = arm_closed hi lo.
Proof.
  destruct before as [i0 a0 b0 c0 q0 r0 n0].
  cbv [ToInt32_arm_code arm_closed shift_amount run fold_left exec eval_operand2 get set_reg
       set_N reg_i reg_tmp0 reg_tmp1 reg_tmp2 reg_dQ reg_dR flag_N].
  set (exp := wrap_unsigned 32 (wrap_unsigned 32
                (Z.ldiff (shifted LSR hi 20) (Z.shiftl 1 11) - 255) - 768)).
  destruct (Z.testbit exp 31); [reflexivity|].
  destruct (Z.testbit (wrap_unsigned 32 (exp - 52)) 31); cbv beta iota;
    destruct (Z.testbit (wrap_unsigned 32 (exp - 31)) 31); reflexivity.
Qed.

Lemma shift_amount_checked :
  forallb shift_amount_ok (map Z.of_nat (seq 0 1024)) = true.
Proof. vm_compute. reflexivity. Qed.

Lemma shift_amount_spec (s : Z) :
  0 <= s < 1024 ->
  0 <= shift_amount s /\ (shift_amount s <? 32) = (s <? 32) /\
  (s < 32 -> shift_amount s = s).
Proof.
  intros Hs.
  assert (Hok : shift_amount_ok s = true).
  { pose proof shift_amount_checked as H. rewrite forallb_forall in H.
    apply H. rewrite <- (Z2Nat.id s) by lia.
    apply in_map, in_seq. lia. }
  unfold shift_amount_ok in Hok.
  assert (Hnn : 0 <= shift_amount s).
  { unfold shift_amount. apply Z.mod_pos_bound. lia. }
  split; [exact Hnn|].
  destruct (Z.ltb_spec s 32).
  - apply Z.eqb_eq in Hok. rewrite Hok. split; [|reflexivity].
    apply Z.ltb_lt. lia.
  - apply Z.leb_le in Hok. split; [apply Z.ltb_ge; lia | lia].
Qed.

Lemma sign_bit_wrap (v : Z) :
  - 2 ^ 31 <= v < 2 ^ 31 -> Z.testbit (wrap_unsigned 32 v) 31 = (v <? 0).
Proof.
  intros Hv. unfold wrap_unsigned.
  destruct (Z.ltb_spec v 0).
  - replace v with (v + 2 ^ 32 + (-1) * 2 ^ 32) by lia.
    rewrite Z.mod_add, Z.mod_small by lia.
    apply Z.testbit_true; [lia|].
    replace ((v + 2 ^ 32) / 2 ^ 31) with 1; [reflexivity|].
    apply Z.div_unique with (r := v + 2 ^ 31); lia.
  - rewrite Z.mod_small by lia.
    apply Z.testbit_false; [lia|]. rewrite Z.div_small by lia. reflexivity.
Qed.

Lemma wrap_small (v : Z) : 0 <= v < 2 ^ 32 -> wrap_unsigned 32 v = v.
Proof. intros; apply Z.mod_small; assumption. Qed.

Lemma ldiff_bit11 (x : Z) : 0 <= x < 2 ^ 12 -> Z.ldiff x (Z.shiftl 1 11) = x mod 2 ^ 11.
Proof.
  intros Hx. change (Z.shiftl 1 11) with (2 ^ 11).
  apply Z.bits_inj'; intros n Hn.
  rewrite Z.ldiff_spec, Z.pow2_bits_eqb by lia.
  destruct (Z.ltb_spec n 11).
  - rewrite Z.mod_pow2_bits_low by lia.
    destruct (Z.eqb_spec 11 n); [lia|]. apply Bool.andb_true_r.
  - rewrite Z.mod_pow2_bits_high by lia.
    destruct (Z.eqb_spec 11 n); [apply Bool.andb_false_r|].
    assert (Hb : Z.testbit x n = false).
    { destruct (Z.eq_dec x 0) as [->|Hx0]; [apply Z.bits_0|].
      apply Z.bits_above_log2; [lia|].
      assert (Z.log2 x < 12) by (apply Z.log2_lt_pow2; lia). lia. }
    rewrite Hb. reflexivity.
Qed.

Section ArmWords.
Variable d : double.
Hypothesis Hd : uint64 d.

Let hi := d / 2 ^ 32.
Let lo := d mod 2 ^ 32.

Lemma hi_range : 0 <= hi < 2 ^ 32.
Proof.
  unfold hi, uint64 in *. split; [apply Z.div_pos; lia|].
  apply Z.div_lt_upper_bound; lia.
Qed.

Lemma lo_range : 0 <= lo < 2 ^ 32.
Proof. apply Z.mod_pos_bound; lia. Qed.

Lemma arm_exponent :
  wrap_unsigned 32 (wrap_unsigned 32
    (Z.ldiff (shifted LSR hi 20) (Z.shiftl 1 11) - 0xff) - 0x300)
  = wrap_unsigned 32 (exponent_field d - 1023).
Proof.
  pose proof hi_range as Hhi.
  unfold shifted. change (20 <? 32) with true. cbv iota.
  rewrite Z.shiftr_div_pow2 by lia.
  assert (Hq : hi / 2 ^ 20 = d / 2 ^ 52).
  { unfold hi. rewrite Z.div_div by lia. reflexivity. }
  rewrite Hq, ldiff_bit11.
  - fold (exponent_field d). unfold wrap_unsigned.
    rewrite Zminus_mod_idemp_l. f_equal. lia.
  - unfold uint64 in Hd. split; [apply Z.div_pos; lia|].
    apply Z.div_lt_upper_bound; lia.
Qed.

Lemma mantissa_words :
  2 ^ 52 + mantissa_field d = (2 ^ 20 + hi mod 2 ^ 20) * 2 ^ 32 + lo.
Proof.
  unfold mantissa_field, hi, lo.
  change (2 ^ 52) with (2 ^ 32 * 2 ^ 20) at 2.
  rewrite Z.rem_mul_r by lia. lia.
Qed.

Lemma hi1_top :
  shifted LSL (Z.lor hi (Z.shiftl 1 20)) 11 = (2 ^ 20 + hi mod 2 ^ 20) * 2 ^ 11.
Proof.
  pose proof hi_range as Hhi.
  unfold shifted, wrap_unsigned. change (11 <? 32) with true. cbv iota.
  rewrite Z.shiftl_mul_pow2 by lia.
  change (2 ^ 32) with (2 ^ 21 * 2 ^ 11).
  rewrite Z.mul_mod_distr_r by lia. f_equal.
  change (Z.shiftl 1 20) with (2 ^ 20).
  assert (Hno : Z.land (hi mod 2 ^ 20) (2 ^ 20) = 0).
  { apply Z.bits_inj'; intros n Hn. rewrite Z.land_spec, Z.bits_0.
    destruct (Z.ltb_spec n 20).
    - rewrite Z.pow2_bits_false by lia. apply Bool.andb_false_r.
    - rewrite Z.mod_pow2_bits_high by lia. reflexivity. }
  rewrite (Z.add_comm (2 ^ 20)), (Z.add_nocarry_lxor _ _ Hno), (Z.lxor_lor _ _ Hno).
  apply Z.bits_inj'; intros n Hn.
  rewrite Z.lor_spec, Z.pow2_bits_eqb by lia.
  destruct (Z.ltb_spec n 21).
  - rewrite Z.mod_pow2_bits_low, Z.lor_spec, Z.pow2_bits_eqb by lia.
    destruct (Z.ltb_spec n 20).
    + rewrite Z.mod_pow2_bits_low by lia. reflexivity.
    + rewrite Z.mod_pow2_bits_high by lia.
      destruct (Z.eqb_spec 20 n); [|lia]. apply Bool.orb_true_r.
  - rewrite !Z.mod_pow2_bits_high by lia.
    destruct (Z.eqb_spec 20 n); [lia|]. reflexivity.
Qed.

Lemma hi1_range : 0 <= Z.lor hi (Z.shiftl 1 20) < 2 ^ 32.
Proof.
  pose proof hi_range as Hhi. change (Z.shiftl 1 20) with (2 ^ 20).
  assert (Hnn : 0 <= Z.lor hi (2 ^ 20)) by (apply Z.lor_nonneg; lia).
  split; [exact Hnn|].
  apply Z.log2_lt_pow2.
  - assert (Z.lor hi (2 ^ 20) <> 0); [|lia].
    intros H0. apply Z.lor_eq_0_iff in H0. lia.
  - rewrite Z.log2_lor by lia.
    apply Z.max_lub_lt; [|reflexivity].
    destruct (Z.eq_dec hi 0) as [->|?]; [reflexivity|].
    apply Z.log2_lt_pow2; lia.
Qed.

Lemma hi1_sign : Z.testbit (Z.lor hi (Z.shiftl 1 20)) 31 = sign_field d.
Proof.
  change (Z.shiftl 1 20) with (2 ^ 20).
  rewrite Z.lor_spec, Z.pow2_bits_false, Bool.orb_false_r by lia.
  unfold hi, sign_field. rewrite Z.div_pow2_bits by lia. reflexivity.
Qed.

Lemma sign_words :
  shifted ASR (Z.lor hi (Z.shiftl 1 20)) 31 = (if sign_field d then 2 ^ 32 - 1 else 0) /\
  shifted LSR (Z.lor hi (Z.shiftl 1 20)) 31 = (if sign_field d then 1 else 0).
Proof.
  pose proof hi1_range as Hr. pose proof hi1_sign as Hs.
  set (x := Z.lor hi (Z.shiftl 1 20)) in *.
  assert (Hx : Z.testbit x 31 = (2 ^ 31 <=? x)).
  { destruct (Z.leb_spec (2 ^ 31) x).
    - apply Z.testbit_true; [lia|].
      replace (x / 2 ^ 31) with 1; [reflexivity|].
      apply Z.div_unique with (r := x - 2 ^ 31); lia.
    - apply Z.testbit_false; [lia|]. rewrite Z.div_small by lia. reflexivity. }
  rewrite <- Hs, Hx. unfold shifted. change (31 <? 32) with true. cbv iota.
  rewrite !Z.shiftr_div_pow2 by lia.
  destruct (Z.leb_spec (2 ^ 31) x).
  - rewrite (wrap_signed_high 32 x) by lia. split.
    + replace ((x - 2 ^ 32) / 2 ^ 31) with (-1); [reflexivity|].
      apply Z.div_unique with (r := x - 2 ^ 31); lia.
    + symmetry. apply Z.div_unique with (r := x - 2 ^ 31); lia.
  - rewrite (wrap_signed_small 32 x) by lia.
    rewrite Z.div_small by lia. split; reflexivity.
Qed.
End ArmWords.

Lemma negate_word (r : Z) :
  0 <= r < 2 ^ 32 ->
  wrap_unsigned 32 (Z.lxor r (2 ^ 32 - 1) + 1) = (- r) mod 2 ^ 32.
Proof.
  intros Hr. change (2 ^ 32 - 1) with (Z.ones 32).
  assert (Hlog : Z.log2 r < 32).
  { destruct (Z.eq_dec r 0) as [->|?]; [reflexivity|]. apply Z.log2_lt_pow2; lia. }
  rewrite <- Z.ldiff_ones_l_low by lia.
  rewrite <- Z.sub_nocarry_ldiff by (apply Z.ldiff_ones_r_low; lia).
  unfold wrap_unsigned. rewrite Z.ones_equiv.
  replace (Z.pred (2 ^ 32) - r + 1) with (- r + 1 * 2 ^ 32) by lia.
  apply Z.mod_add. lia.
Qed.

Lemma lor_disjoint (Y X j : Z) :
  0 <= j -> 0 <= Y < 2 ^ j -> Z.lor Y (X * 2 ^ j) = X * 2 ^ j + Y.
Proof.
  intros Hj HY.
  assert (Hno : Z.land Y (X * 2 ^ j) = 0).
  { apply Z.bits_inj'; intros n Hn. rewrite Z.land_spec, Z.bits_0.
    destruct (Z.ltb_spec n j).
    - rewrite Z.mul_pow2_bits_low by lia. apply Bool.andb_false_r.
    - assert (Hb : Z.testbit Y n = false).
      { destruct (Z.eq_dec Y 0) as [->|?]; [apply Z.bits_0|].
        apply Z.bits_above_log2; [lia|].
        assert (Z.log2 Y < j) by (apply Z.log2_lt_pow2; lia). lia. }
      rewrite Hb. reflexivity. }
  rewrite <- (Z.lxor_lor _ _ Hno), <- (Z.add_nocarry_lxor _ _ Hno). lia.
Qed.

Lemma arm_magnitude (A lo e : Z) :
  2 ^ 20 <= A < 2 ^ 21 -> 0 <= lo < 2 ^ 32 -> 0 <= e <= 1024 ->
  Z.lor (if e <? 52 then shifted LSR lo (52 - e) else shifted LSL lo (e - 52))
        (if e <? 31 then shifted LSR (A * 2 ^ 11) (31 - e)
         else shifted LSL (A * 2 ^ 11) (e - 31))
  = (if 52 <=? e then (A * 2 ^ 32 + lo) * 2 ^ (e - 52)
     else (A * 2 ^ 32 + lo) / 2 ^ (52 - e)) mod 2 ^ 32.
Proof.
  intros HA Hlo He. unfold shifted, wrap_unsigned.
  destruct (Z.ltb_spec e 52) as [H52|H52]; destruct (Z.leb_spec 52 e) as [H52'|H52'];
    try lia; destruct (Z.ltb_spec e 31) as [H31|H31]; try lia;
    rewrite ?Z.shiftl_mul_pow2, ?Z.shiftr_div_pow2 by lia.
  - (* e < 31 *)
    destruct (Z.ltb_spec (31 - e) 32); [|lia].
    destruct (Z.ltb_spec (52 - e) 32) as [Hk|Hk].
    + (* 21 <= e < 31 *)
      set (k := 52 - e) in *.
      pose proof (pow2_pos k ltac:(lia)) as Hpk.
      pose proof (pow2_pos (32 - k) ltac:(lia)) as Hpj.
      assert (Hs32 : 2 ^ 32 = 2 ^ (32 - k) * 2 ^ k).
      { rewrite <- Z.pow_add_r by lia. f_equal. lia. }
      assert (Hs11 : 2 ^ 11 = 2 ^ (32 - k) * 2 ^ (31 - e)).
      { rewrite <- Z.pow_add_r by lia. f_equal. lia. }
      pose proof (pow2_pos (31 - e) ltac:(lia)) as Hpe.
      assert (Hup : A * 2 ^ 11 / 2 ^ (31 - e) = A * 2 ^ (32 - k)).
      { rewrite Hs11, Z.mul_assoc. apply Z.div_mul. lia. }
      assert (HY : 0 <= lo / 2 ^ k < 2 ^ (32 - k)).
      { split; [apply Z.div_pos; lia|]. apply Z.div_lt_upper_bound; lia. }
      assert (Hq : (A * 2 ^ 32 + lo) / 2 ^ k = A * 2 ^ (32 - k) + lo / 2 ^ k).
      { rewrite Hs32, Z.mul_assoc. apply Z.div_add_l. lia. }
      rewrite Hup, Hq, lor_disjoint by lia.
      symmetry. apply Z.mod_small.
      assert (2 ^ (32 - k) <= 2 ^ 10) by (apply pow2_le; lia).
      change (2 ^ 10) with 1024 in *. change (2 ^ 21) with 2097152 in *.
      change (2 ^ 32) with 4294967296 in *. nia.
    + (* e < 21 *)
      set (k := 52 - e) in *.
      pose proof (pow2_pos (k - 32) ltac:(lia)) as Hpk.
      assert (Hs : 2 ^ (31 - e) = 2 ^ (k - 32) * 2 ^ 11).
      { rewrite <- Z.pow_add_r by lia. f_equal. lia. }
      assert (Hsk : 2 ^ k = 2 ^ 32 * 2 ^ (k - 32)).
      { rewrite <- Z.pow_add_r by lia. f_equal. lia. }
      rewrite Z.lor_0_l, Hs, Z.div_mul_cancel_r by lia.
      rewrite Hsk, <- Z.div_div by lia.
      rewrite Z.div_add_l, (Z.div_small lo) by lia. rewrite Z.add_0_r.
      symmetry. apply Z.mod_small. split; [apply Z.div_pos; lia|].
      apply Z.div_lt_upper_bound; [lia|].
      change (2 ^ 32) with 4294967296. change (2 ^ 21) with 2097152 in *. nia.
  - (* 31 <= e < 52 *)
    destruct (Z.ltb_spec (52 - e) 32); [|lia].
    destruct (Z.ltb_spec (e - 31) 32); [|lia].
    set (k := 52 - e) in *.
    pose proof (pow2_pos k ltac:(lia)) as Hpk.
    pose proof (pow2_pos (32 - k) ltac:(lia)) as Hpj.
    assert (Hs32 : 2 ^ 32 = 2 ^ k * 2 ^ (32 - k)).
    { rewrite <- Z.pow_add_r by lia. f_equal. lia. }
    assert (Hup : A * 2 ^ 11 * 2 ^ (e - 31) = A * 2 ^ (32 - k)).
    { rewrite <- Z.mul_assoc, <- Z.pow_add_r by lia. do 2 f_equal. lia. }
    assert (HY : 0 <= lo / 2 ^ k < 2 ^ (32 - k)).
    { split; [apply Z.div_pos; lia|]. apply Z.div_lt_upper_bound; lia. }
    assert (Hq : (A * 2 ^ 32 + lo) / 2 ^ k = A * 2 ^ (32 - k) + lo / 2 ^ k).
    { rewrite Hs32, (Z.mul_comm (2 ^ k)), Z.mul_assoc. apply Z.div_add_l. lia. }
    rewrite Hup, Hq.
    rewrite <- (Zplus_mod_idemp_l (A * 2 ^ (32 - k))).
    assert (HX : (A * 2 ^ (32 - k)) mod 2 ^ 32 = A mod 2 ^ k * 2 ^ (32 - k)).
    { rewrite Hs32. apply Z.mul_mod_distr_r; lia. }
    rewrite HX, lor_disjoint by lia.
    symmetry. apply Z.mod_small.
    pose proof (Z.mod_pos_bound A (2 ^ k) Hpk). nia.
  - (* 52 <= e *)
    set (k := e - 52) in *.
    assert (Hup : (if e - 31 <? 32 then (A * 2 ^ 11 * 2 ^ (e - 31)) mod 2 ^ 32 else 0) = 0).
    { destruct (Z.ltb_spec (e - 31) 32); [|reflexivity].
      replace (A * 2 ^ 11 * 2 ^ (e - 31)) with (A * 2 ^ k * 2 ^ 32).
      - apply Z.mod_mul. lia.
      - rewrite <- !Z.mul_assoc, <- !Z.pow_add_r by lia. do 2 f_equal. lia. }
    rewrite Hup, Z.lor_0_r.
    destruct (Z.ltb_spec k 32) as [Hk|Hk].
    + replace ((A * 2 ^ 32 + lo) * 2 ^ k) with (lo * 2 ^ k + A * 2 ^ k * 2 ^ 32) by lia.
      rewrite Z.mod_add by lia. reflexivity.
    + symmetry.
      replace ((A * 2 ^ 32 + lo) * 2 ^ k)
        with ((A * 2 ^ 32 + lo) * 2 ^ (k - 32) * 2 ^ 32).
      * apply Z.mod_mul. lia.
      * rewrite <- !Z.mul_assoc, <- Z.pow_add_r by lia. do 2 f_equal. lia.
Qed.

Lemma shifted_by_amount (k : shift_kind) (x s : Z) :
  0 <= s < 1024 -> shifted k x (shift_amount s) = shifted k x s.
Proof.
  intros Hs. destruct (shift_amount_spec s Hs) as (Hnn & Hlt & Heq).
  destruct (s <? 32) eqn:H.
  - apply Z.ltb_lt in H. rewrite Heq by lia. reflexivity.
  - unfold shifted. rewrite Hlt, H. reflexivity.
Qed.

Lemma arm_closed_spec (d : double) :
  uint64 d ->
  arm_closed (d / 2 ^ 32) (d mod 2 ^ 32)
  = ((if sign_field d then -1 else 1) * integer_part d) mod 2 ^ 32.
Proof.
  intros Hd.
  pose proof (exponent_field_range d) as HE.
  pose proof (mantissa_field_range d) as Hm.
  pose proof (hi_range d Hd) as Hhi. pose proof (lo_range d) as Hlo.
  destruct (sign_words d Hd) as [Hasr Hlsr].
  unfold arm_closed; cbv zeta.
  rewrite (arm_exponent d Hd), Hasr, Hlsr, (hi1_top d Hd).
  set (e := exponent_field d - 1023).
  rewrite (sign_bit_wrap e) by (subst e; lia).
  destruct (Z.ltb_spec e 0) as [Hneg|Hpos].
  { rewrite integer_part_below_one by (subst e; lia).
    rewrite Z.mul_0_r. reflexivity. }
  rewrite (wrap_small e) by lia.
  rewrite (sign_bit_wrap (e - 52)), (sign_bit_wrap (e - 31)) by lia.
  assert (Hlow : (if e - 52 <? 0
                  then shifted LSR (d mod 2 ^ 32) (wrap_unsigned 32 (52 - e) mod 256)
                  else shifted LSL (d mod 2 ^ 32) (shift_amount (wrap_unsigned 32 (e - 52))))
                 = if e <? 52 then shifted LSR (d mod 2 ^ 32) (52 - e)
                   else shifted LSL (d mod 2 ^ 32) (e - 52)).
  { destruct (Z.ltb_spec (e - 52) 0); destruct (Z.ltb_spec e 52); try lia.
    - rewrite wrap_small, (Z.mod_small (52 - e)) by lia. reflexivity.
    - assert (e < 1024 + 52) by (subst e; lia).
      rewrite wrap_small, shifted_by_amount by lia. reflexivity. }
  assert (Hup : forall top,
             (if e - 31 <? 0
              then shifted LSR top
                     (wrap_unsigned 32 (0 - wrap_unsigned 32 (e - 31)) mod 256)
              else shifted LSL top (shift_amount (wrap_unsigned 32 (e - 31))))
             = if e <? 31 then shifted LSR top (31 - e) else shifted LSL top (e - 31)).
  { intros top. destruct (Z.ltb_spec (e - 31) 0); destruct (Z.ltb_spec e 31); try lia.
    - unfold wrap_unsigned. rewrite Zminus_mod_idemp_r.
      replace (0 - (e - 31)) with (31 - e) by lia.
      rewrite (Z.mod_small (31 - e) (2 ^ 32)), (Z.mod_small (31 - e)) by lia. reflexivity.
    - assert (e < 1024 + 31) by (subst e; lia).
      rewrite wrap_small, shifted_by_amount by lia. reflexivity. }
  rewrite Hlow, Hup.
  set (A := 2 ^ 20 + (d / 2 ^ 32) mod 2 ^ 20).
  assert (HA : 2 ^ 20 <= A < 2 ^ 21).
  { pose proof (Z.mod_pos_bound (d / 2 ^ 32) (2 ^ 20) ltac:(lia)).
    subst A. change (2 ^ 21) with (2 * 2 ^ 20). lia. }
  rewrite (arm_magnitude A (d mod 2 ^ 32) e HA Hlo) by (subst e; lia).
  assert (Hip : integer_part d
                = if 52 <=? e then (A * 2 ^ 32 + d mod 2 ^ 32) * 2 ^ (e - 52)
                  else (A * 2 ^ 32 + d mod 2 ^ 32) / 2 ^ (52 - e)).
  { unfold integer_part; cbv zeta. rewrite (mantissa_words d). fold A.
    destruct (Z.eqb_spec (exponent_field d) 0); [subst e; lia|].
    destruct (Z.leb_spec 1075 (exponent_field d)); destruct (Z.leb_spec 52 e);
      try (subst e; lia); do 2 f_equal; subst e; lia. }
  rewrite <- Hip.
  pose proof (Z.mod_pos_bound (integer_part d) (2 ^ 32) ltac:(lia)) as Hr.
  destruct (sign_field d).
  - rewrite negate_word by lia.
    replace (- (integer_part d mod 2 ^ 32)) with (0 - integer_part d mod 2 ^ 32) by lia.
    rewrite Zminus_mod_idemp_r. reflexivity.
  - rewrite Z.lxor_0_r, Z.add_0_r, Z.mul_1_l. unfold wrap_unsigned.
    apply Z.mod_mod. lia.
Qed.

(** X10: the ARM assembly returns what the portable [ToInt32] returns, on
    every double and whatever the registers held before. *)
Theorem ToInt32_arm_portable (before : cpu) (d : double) :
  uint64 d -> ToInt32_arm before d = ToInt32 d.
Proof.
  intros Hd. unfold ToInt32_arm. cbv zeta.
  rewrite ToInt32_arm_code_closed, (arm_closed_spec d Hd).
  unfold ToInt32. rewrite (ToIntWidth_wrap int32_t d).
  change (MakeUnsigned int32_t) with uint32_t.
  rewrite (ToUintWidth_integer_part uint32_t d Hd). reflexivity.
Qed.

Lemma ToInt32_arm_portable_witness :
  uint64 minus_2_7 /\ ToInt32_arm (Cpu 1 2 3 4 5 6 true) minus_2_7 = -2.
Proof.
  assert (Hd : uint64 minus_2_7) by (unfold uint64, minus_2_7; lia).
  split; [exact Hd|].
  rewrite (ToInt32_arm_portable _ minus_2_7 Hd). vm_compute. reflexivity.
Defined.

(** ** ToInteger and negation *)

Lemma negate_double_of_integer (s : bool) (n : Z) :
  n = 0 \/ representable n ->
  negate (double_of_integer s n) = double_of_integer (negb s) n.
Proof.
  intros [->|Hrep].
  - destruct s; reflexivity.
  - destruct (double_of_integer_fields s n Hrep) as (Hu & Hs & _ & _ & _).
    pose proof (double_fields _ Hu) as Hf.
    destruct (negate_fields _ Hu) as (Hnu & Hns & HnE & Hnm).
    pose proof (double_fields _ Hnu) as Hnf.
    rewrite Hns, HnE, Hnm, Hs in Hnf. rewrite Hs in Hf.
    rewrite Hnf. clear Hnf Hnu Hns HnE Hnm.
    set (E := exponent_field (double_of_integer s n)) in *.
    set (m := mantissa_field (double_of_integer s n)) in *.
    assert (Hbody : forall b, double_of_integer b n
                              = (if b then 2 ^ 63 else 0) + (double_of_integer s n
                                 - (if s then 2 ^ 63 else 0))).
    { intros b. unfold double_of_integer; cbv zeta. unfold SignBit.
      destruct Hrep as [[Hpos _] _].
      destruct (Z.eqb_spec n 0); [lia|]. destruct b, s; lia. }
    rewrite (Hbody (negb s)). lia.
Qed.

(** X11: [ToInteger] commutes with negation on every double that is not a
    NaN. *)
Theorem ToInteger_negate (d : double) :
  uint64 d -> IsNaN d = false ->
  ToInteger (negate d) = negate (ToInteger d).
Proof.
  intros Hd Hnan.
  destruct (negate_fields d Hd) as (Hnu & Hns & HnE & Hnm).
  destruct (IsFinite d) eqn:Hfin.
  - assert (Hnfin : IsFinite (negate d) = true).
    { rewrite IsFinite_spec, HnE, <- IsFinite_spec. exact Hfin. }
    assert (Hip : integer_part (negate d) = integer_part d).
    { unfold integer_part. rewrite HnE, Hnm. reflexivity. }
    rewrite (ToInteger_finite _ Hnu Hnfin), (ToInteger_finite d Hd Hfin), Hns, Hip.
    symmetry. apply negate_double_of_integer.
    destruct (Z.lt_ge_cases (exponent_field d) 1023) as [Hlt|Hge].
    + left. apply integer_part_below_one, Hlt.
    + right. apply integer_part_representable.
      pose proof (finite_exponent d Hfin). lia.
  - destruct (nonfinite_cases d Hfin) as [Hn|Hinf]; [rewrite Hn in Hnan; discriminate|].
    assert (Hninf : IsInfinite (negate d) = true).
    { rewrite IsInfinite_spec, HnE, Hnm, <- IsInfinite_spec. exact Hinf. }
    rewrite (ToInteger_infinite _ Hninf), (ToInteger_infinite d Hinf). reflexivity.
Qed.

Lemma ToInteger_negate_witness :
  uint64 plus_2_1 /\ ToInteger (negate plus_2_1) = minus_two.
Proof.
  assert (Hd : uint64 plus_2_1) by (unfold uint64, plus_2_1; lia).
  assert (Hnan : IsNaN plus_2_1 = false) by (vm_compute; reflexivity).
  split; [exact Hd|].
  rewrite (ToInteger_negate plus_2_1 Hd Hnan). vm_compute. reflexivity.
Defined.
